(** * A shallow embedding of the to-do list store ([todo_app.py])

    The Python class [TodoApp] keeps a list of task dictionaries and a
    counter [next_id], and writes the list to a JSON file after every
    mutation.  This development embeds the store operations as functions in
    a small state/exception/trace monad and proves the properties the
    specification states about them.

    Modelling decisions:
    - a Python [str] is a list of Unicode code points ([N]);
    - a task dictionary with the six keys written by [add_task] is the
      record [Task.t]; [None] for ['completed_at'] is [None];
    - a reference to a task held in [self.tasks] is its index in the list:
      the dictionaries of the list are pairwise distinct objects (each one
      is built by [add_task] or by the JSON parser), so updating "the
      object" is updating one position;
    - what the environment decides during one call (the clock, whether the
      file can be written, the line typed at the prompt) is the record
      [Env]; what the call does to the environment (prints, prompts, file
      writes) is the trace of [event]s it returns. *)

From Stdlib Require Import ZArith NArith List Lia String Ascii SpecFloat.
From Stdlib Require Import Sorting.Sorted.
From stdpp Require Import base decidable option numbers list.

Local Open Scope Z_scope.

(** ** Python strings *)

Definition str : Type := list N.

(** A literal of the source, as code points. *)
Definition lit (s : string) : str := map N_of_ascii (list_ascii_of_string s).

(** [str.isspace] on one code point: the table of CPython's
    [_PyUnicode_IsWhitespace]. *)
Definition isspace (c : N) : bool :=
  (((0x09 <=? c) && (c <=? 0x0D)) || ((0x1C <=? c) && (c <=? 0x20))
   || (c =? 0x85) || (c =? 0xA0) || (c =? 0x1680)
   || ((0x2000 <=? c) && (c <=? 0x200A))
   || (c =? 0x2028) || (c =? 0x2029) || (c =? 0x202F) || (c =? 0x205F)
   || (c =? 0x3000))%N.

Fixpoint lstrip (s : str) : str :=
  match s with
  | c :: s' => if isspace c then lstrip s' else s
  | [] => []
  end.

Definition rstrip (s : str) : str := rev (lstrip (rev s)).

(** [s.strip()] *)
Definition strip (s : str) : str := rstrip (lstrip s).

(** Truth value of a string in a condition: [not s] holds of the empty
    string only. *)
Definition truthy (s : str) : bool :=
  match s with [] => false | _ :: _ => true end.

(** [s.lower()], on the ASCII letters.  Python maps every cased code point;
    the source only compares the result with ['y'], and ['Y'] and ['y'] are
    the only code points whose lower case is ['y'] (no code point has an
    empty lower case), so the comparison cannot tell the two functions
    apart. *)
Definition lower_char (c : N) : N :=
  if ((0x41 <=? c) && (c <=? 0x5A))%N then (c + 0x20)%N else c.

Definition lower (s : str) : str := map lower_char s.

(** ** Tasks and the store *)

Module Task.
Record t : Type := mk {
  id : Z;
  title : str;
  description : str;
  completed : bool;
  created_at : str;
  completed_at : option str
}.

(** [task['title'] = v] and the like. *)
Definition set_title (v : str) (x : t) : t :=
  mk (id x) v (description x) (completed x) (created_at x) (completed_at x).
Definition set_description (v : str) (x : t) : t :=
  mk (id x) (title x) v (completed x) (created_at x) (completed_at x).
Definition set_completed (v : bool) (x : t) : t :=
  mk (id x) (title x) (description x) v (created_at x) (completed_at x).
Definition set_completed_at (v : option str) (x : t) : t :=
  mk (id x) (title x) (description x) (completed x) (created_at x) v.
End Task.

Record TodoApp : Type := mkApp {
  filename : str;
  tasks : list Task.t;
  next_id : Z
}.

(** ** Effects *)

(** The lines the store prints, by kind, with the values formatted in. *)
Inductive message : Type :=
| ErrorLoading
| ErrorSaving
| TitleEmpty
| Added (title : str) (task_id : Z)
| NotFound (task_id : Z)
| Updated (task_id : Z)
| DeletionCancelled
| Deleted (title : str)
| AlreadyCompleted (title : str)
| MarkedCompleted (title : str)
| AlreadyPending (title : str)
| MarkedPending (title : str).

Inductive event : Type :=
| Print (m : message)
| Prompt (title : str)                                (* input(...) *)
| Dump (file : str) (data : list Task.t) (ok : bool). (* open + json.dump *)

Definition is_save (ev : event) : bool :=
  match ev with Dump _ _ _ => true | _ => false end.

(** No write of the file was attempted. *)
Definition no_save (tr : list event) : Prop :=
  Forall (λ ev, is_save ev = false) tr.

Inductive exception : Type :=
| IndexError   (* pop from empty list *)
| EOFError.    (* input() at end of input *)

Inductive completion (A : Type) : Type :=
| Returns (a : A)
| Raises (x : exception).
Arguments Returns {A} a.
Arguments Raises {A} x.

(** What one call is given by its environment. *)
Record Env : Type := mkEnv {
  now : str;              (* datetime.now().isoformat() *)
  save_ok : bool;         (* does writing the file succeed *)
  answer : option str     (* the line read by input(), if any *)
}.

Record Outcome (A : Type) : Type := mkOutcome {
  result : completion A;
  self_after : TodoApp;
  trace : list event
}.
Arguments mkOutcome {A} result self_after trace.
Arguments result {A} o.
Arguments self_after {A} o.
Arguments trace {A} o.

Definition M (A : Type) : Type := TodoApp → Outcome A.

Definition ret {A} (a : A) : M A := λ self, mkOutcome (Returns a) self [].

Definition raise {A} (x : exception) : M A := λ self, mkOutcome (Raises x) self [].

Definition bind {A B} (m : M A) (k : A → M B) : M B := λ self,
  let o := m self in
  match result o with
  | Returns a =>
      let o' := k a (self_after o) in
      mkOutcome (result o') (self_after o') (trace o ++ trace o')
  | Raises x => mkOutcome (Raises x) (self_after o) (trace o)
  end.

Notation "x <- m ;; k" := (bind m (λ x, k))
  (at level 100, m at next level, right associativity).
Notation "m ;; k" := (bind m (λ _, k))
  (at level 100, right associativity).

Definition get_self : M TodoApp := λ self, mkOutcome (Returns self) self [].

Definition set_tasks (l : list Task.t) : M unit := λ self,
  mkOutcome (Returns tt) (mkApp (filename self) l (next_id self)) [].

Definition set_next_id (n : Z) : M unit := λ self,
  mkOutcome (Returns tt) (mkApp (filename self) (tasks self) n) [].

Definition emit (ev : event) : M unit := λ self, mkOutcome (Returns tt) self [ev].

Definition print (m : message) : M unit := emit (Print m).

(** [input(prompt).lower()] *)
Definition input_lower (e : Env) (title : str) : M str :=
  emit (Prompt title) ;;
  match answer e with
  | Some line => ret (lower line)
  | None => raise EOFError
  end.

(** [self.tasks.append(task)] *)
Definition append (task : Task.t) : M unit :=
  self <- get_self ;; set_tasks (tasks self ++ [task]).

(** [self.tasks.pop()]: drops the last element, [IndexError] on the empty
    list. *)
Definition pop : M unit :=
  self <- get_self ;;
  match tasks self with
  | [] => raise IndexError
  | _ :: _ => set_tasks (removelast (tasks self))
  end.

(** [task[...] = ...] through the reference [i]. *)
Definition modify_task (i : nat) (f : Task.t → Task.t) : M unit :=
  self <- get_self ;; set_tasks (alter f i (tasks self)).

(** ** The store operations *)

(** [_get_next_id]: [max] over the ids, plus one; 1 for the empty list. *)
Definition _get_next_id (l : list Task.t) : Z :=
  match l with
  | [] => 1
  | task :: rest => foldl (λ m x, Z.max m (Task.id x)) (Task.id task) rest + 1
  end.

(** [__init__], once [load_tasks] has returned the list [loaded]. *)
Definition init (file : str) (loaded : list Task.t) : TodoApp :=
  mkApp file loaded (_get_next_id loaded).

Definition save_tasks (e : Env) : M bool :=
  self <- get_self ;;
  if save_ok e then
    emit (Dump (filename self) (tasks self) true) ;;
    ret true
  else
    emit (Dump (filename self) (tasks self) false) ;;
    print ErrorSaving ;;
    ret false.

(** The dictionary [add_task] builds. *)
Definition new_task (e : Env) (title description : str) (self : TodoApp) : Task.t :=
  Task.mk (next_id self) (strip title) (strip description) false (now e) None.

Definition add_task (e : Env) (title description : str) : M bool :=
  if negb (truthy (strip title)) then
    print TitleEmpty ;;
    ret false
  else
    self <- get_self ;;
    let task := new_task e title description self in
    append task ;;
    self <- get_self ;; set_next_id (next_id self + 1) ;;
    saved <- save_tasks e ;;
    if saved then
      print (Added title (Task.id task)) ;;
      ret true
    else
      pop ;;
      self <- get_self ;; set_next_id (next_id self - 1) ;;
      ret false.

(** The loop of [find_task_by_id]: the first task of the list with that
    id, as the pair of its position (the reference) and its contents. *)
Abbreviation find_in task_id l :=
  (list_find (λ task, Task.id task = task_id) l).

Definition find_task_by_id (task_id : Z) : M (option (nat * Task.t)) :=
  self <- get_self ;;
  ret (find_in task_id (tasks self)).

Definition update_task (e : Env) (task_id : Z) (title description : option str)
  : M bool :=
  found <- find_task_by_id task_id ;;
  match found with
  | None => print (NotFound task_id) ;; ret false
  | Some (i, task) =>
      (* what follows the title block *)
      let continue : M bool :=
        match description with
        | Some d => modify_task i (Task.set_description (strip d))
        | None => ret tt
        end ;;
        saved <- save_tasks e ;;
        if saved then print (Updated task_id) ;; ret true else ret false in
      match title with
      | Some new_title =>
          if negb (truthy (strip new_title)) then
            print TitleEmpty ;;
            ret false
          else
            modify_task i (Task.set_title (strip new_title)) ;;
            continue
      | None => continue
      end
  end.

Definition delete_task (e : Env) (task_id : Z) : M bool :=
  found <- find_task_by_id task_id ;;
  match found with
  | None => print (NotFound task_id) ;; ret false
  | Some (_, task) =>
      confirm <- input_lower e (Task.title task) ;;
      if bool_decide (confirm ≠ lit "y") then
        print DeletionCancelled ;;
        ret false
      else
        self <- get_self ;;
        set_tasks (filter (λ x, Task.id x ≠ task_id) (tasks self)) ;;
        saved <- save_tasks e ;;
        if saved then print (Deleted (Task.title task)) ;; ret true
        else ret false
  end.

Definition complete_task (e : Env) (task_id : Z) : M bool :=
  found <- find_task_by_id task_id ;;
  match found with
  | None => print (NotFound task_id) ;; ret false
  | Some (i, task) =>
      if Task.completed task then
        print (AlreadyCompleted (Task.title task)) ;;
        ret true
      else
        modify_task i (Task.set_completed true) ;;
        modify_task i (Task.set_completed_at (Some (now e))) ;;
        saved <- save_tasks e ;;
        if saved then print (MarkedCompleted (Task.title task)) ;; ret true
        else ret false
  end.

Definition uncomplete_task (e : Env) (task_id : Z) : M bool :=
  found <- find_task_by_id task_id ;;
  match found with
  | None => print (NotFound task_id) ;; ret false
  | Some (i, task) =>
      if negb (Task.completed task) then
        print (AlreadyPending (Task.title task)) ;;
        ret true
      else
        modify_task i (Task.set_completed false) ;;
        modify_task i (Task.set_completed_at None) ;;
        saved <- save_tasks e ;;
        if saved then print (MarkedPending (Task.title task)) ;; ret true
        else ret false
  end.

(** The dictionary returned by [get_task_stats]. *)
Record Stats : Type := mkStats {
  total : Z;
  completed : Z;
  pending : Z
}.

Definition get_task_stats : M Stats :=
  self <- get_self ;;
  let total := Z.of_nat (length (tasks self)) in
  let completed :=
    foldl Z.add 0 (map (λ _, 1) (filter (λ x, Task.completed x = true) (tasks self))) in
  let pending := total - completed in
  ret (mkStats total completed pending).

(** ** Loading *)

(** The values [json.load] builds. *)
#[warnings="-register-all"] Inductive pyobj : Type :=
| PyNone
| PyBool (b : bool)
| PyInt (z : Z)
| PyFloat (f : spec_float)
| PyStr (s : str)
| PyList (l : list pyobj)
| PyDict (d : list (str * pyobj)).

(** The dictionary of a task, keys in the order [add_task] writes them. *)
Definition task_to_py (x : Task.t) : pyobj :=
  PyDict [ (lit "id", PyInt (Task.id x));
           (lit "title", PyStr (Task.title x));
           (lit "description", PyStr (Task.description x));
           (lit "completed", PyBool (Task.completed x));
           (lit "created_at", PyStr (Task.created_at x));
           (lit "completed_at",
             match Task.completed_at x with
             | Some stamp => PyStr stamp
             | None => PyNone
             end) ].

Definition tasks_to_py (l : list Task.t) : pyobj := PyList (map task_to_py l).

(** What opening and parsing the file comes to. *)
Inductive read_outcome : Type :=
| Parsed (v : pyobj)      (* json.load returned v *)
| JSONDecodeError         (* the contents are not JSON *)
| FileNotFoundError       (* the file went away before open *)
| OtherError.             (* any exception the handler does not name *)

Record FileEnv : Type := mkFileEnv {
  path_exists : bool;     (* os.path.exists(self.filename) *)
  read : read_outcome
}.

Inductive load_exception : Type := Uncaught.

(** [load_tasks]: the value returned (or the exception that escapes) and
    the lines printed. *)
Definition load_tasks (f : FileEnv) : (pyobj + load_exception) * list event :=
  if path_exists f then
    match read f with
    | Parsed v => (inl v, [])
    | JSONDecodeError | FileNotFoundError => (inl (PyList []), [Print ErrorLoading])
    | OtherError => (inr Uncaught, [])
    end
  else (inl (PyList []), []).

(** ** Properties of stores, and runs of several calls *)

Definition ids (l : list Task.t) : list Z := Task.id <$> l.

(** Some task of the store has this id. *)
Definition has_id (task_id : Z) (app : TodoApp) : Prop :=
  task_id ∈ ids (tasks app).

Definition unique_ids (app : TodoApp) : Prop := NoDup (ids (tasks app)).

(** The counter is above every id in use. *)
Definition counter_above (app : TodoApp) : Prop :=
  Forall (λ x, Task.id x < next_id app) (tasks app).

(** [completed] is false exactly when [completed_at] is [None]. *)
Definition stamp_consistent (x : Task.t) : Prop :=
  Task.completed x = false ↔ Task.completed_at x = None.

Definition store_consistent (app : TodoApp) : Prop :=
  Forall stamp_consistent (tasks app).

(** The line typed at the delete prompt confirms / declines. *)
Definition confirms (e : Env) : Prop :=
  ∃ line, answer e = Some line ∧ lower line = lit "y".

Definition declines (e : Env) : Prop :=
  ∃ line, answer e = Some line ∧ lower line ≠ lit "y".

(** One call of [add_task], with its environment. *)
Record AddCall : Type := mkAddCall {
  call_env : Env;
  call_title : str;
  call_description : str
}.

(** A sequence of [add_task] calls; the list of the values returned. *)
Fixpoint add_tasks (calls : list AddCall) : M (list bool) :=
  match calls with
  | [] => ret []
  | c :: rest =>
      r <- add_task (call_env c) (call_title c) (call_description c) ;;
      rs <- add_tasks rest ;;
      ret (r :: rs)
  end.

(** The mutating operations, as data. *)
Inductive operation : Type :=
| Add (title description : str)
| Update (task_id : Z) (title description : option str)
| Complete (task_id : Z)
| Uncomplete (task_id : Z)
| Delete (task_id : Z).

Definition run (e : Env) (op : operation) : M bool :=
  match op with
  | Add title description => add_task e title description
  | Update task_id title description => update_task e task_id title description
  | Complete task_id => complete_task e task_id
  | Uncomplete task_id => uncomplete_task e task_id
  | Delete task_id => delete_task e task_id
  end.

(** The two assignments of [complete_task], and of [uncomplete_task]. *)
Definition mark_completed (stamp : str) (x : Task.t) : Task.t :=
  Task.set_completed_at (Some stamp) (Task.set_completed true x).

Definition mark_pending (x : Task.t) : Task.t :=
  Task.set_completed_at None (Task.set_completed false x).

(** The assignments of [update_task], for the fields that are given. *)
Definition apply_update (title description : option str) (x : Task.t) : Task.t :=
  let x := match title with
           | Some new_title => Task.set_title (strip new_title) x
           | None => x
           end in
  match description with
  | Some d => Task.set_description (strip d) x
  | None => x
  end.

(** The task [x] once completed and reverted: pending, no stamp, the other
    four fields as they were. *)
Definition reverted (x : Task.t) : Task.t :=
  Task.mk (Task.id x) (Task.title x) (Task.description x) false
          (Task.created_at x) None.

(** ** Small stores used as examples *)

Definition sample_task (n : Z) (name : string) : Task.t :=
  Task.mk n (lit name) [] false (lit "2024-01-01T09:00:00") None.

Definition sample_app : TodoApp :=
  mkApp (lit "tasks.json") [sample_task 1 "A"; sample_task 2 "B"] 3.

(** A list with a repeated id, a blank title, and a pending task that
    carries a completion stamp. *)
Definition ill_formed_tasks : list Task.t :=
  [ Task.mk 7 [] [] false [] (Some (lit "2024-01-01T09:00:00"));
    Task.mk 7 (lit "again") [] true [] None ].

Definition env_ok : Env := mkEnv (lit "2024-01-02T10:00:00") true (Some (lit "Y")).
Definition env_fail : Env := mkEnv (lit "2024-01-02T10:00:00") false (Some (lit "y")).
Definition env_no : Env := mkEnv (lit "2024-01-02T10:00:00") true (Some (lit "n")).

(** Three Add calls; the save of the second one fails. *)
Definition sample_calls : list AddCall :=
  [ mkAddCall env_ok (lit "C") [];
    mkAddCall env_fail (lit "D") [];
    mkAddCall env_ok (lit " E ") (lit "x") ].

(** ** The rest of the data model, and runs of any calls *)

(** The id an operation looks up, if it looks one up. *)
Definition targets (op : operation) : option Z :=
  match op with
  | Add _ _ => None
  | Update task_id _ _ | Complete task_id | Uncomplete task_id
  | Delete task_id => Some task_id
  end.

(** The title is not empty and has no white space around it. *)
Definition trimmed_title (x : Task.t) : Prop :=
  Task.title x ≠ [] ∧ strip (Task.title x) = Task.title x.

Definition titles_ok (app : TodoApp) : Prop :=
  Forall trimmed_title (tasks app).

(** The invariants of the data model, together. *)
Definition well_formed (app : TodoApp) : Prop :=
  unique_ids app ∧ counter_above app ∧ store_consistent app ∧ titles_ok app.

(** The store after a sequence of calls, each with its environment.  The
    menu loop goes on after a call that raised, with the store as the
    call left it. *)
Fixpoint after_calls (calls : list (Env * operation)) (app : TodoApp) : TodoApp :=
  match calls with
  | [] => app
  | (e, op) :: rest => after_calls rest (self_after (run e op app))
  end.

(** The functions the operations apply to a task in place. *)
Inductive assignment : (Task.t → Task.t) → Prop :=
| AssignFields title description :
    (∀ new_title, title = Some new_title → strip new_title ≠ []) →
    assignment (apply_update title description)
| AssignCompleted stamp : assignment (mark_completed stamp)
| AssignPending : assignment mark_pending.

(** The four ways a call can leave the store. *)
Inductive change (app : TodoApp) : TodoApp → Prop :=
| Unchanged : change app app
| Appended e title description :
    strip title ≠ [] →
    change app (mkApp (filename app)
                      (tasks app ++ [new_task e title description app])
                      (next_id app + 1))
| Rewritten i f :
    assignment f →
    change app (mkApp (filename app) (alter f i (tasks app)) (next_id app))
| Removed task_id :
    change app (mkApp (filename app)
                      (filter (λ x, Task.id x ≠ task_id) (tasks app))
                      (next_id app)).

(** [pending] of the statistics, counted directly. *)
Definition count_pending (l : list Task.t) : nat :=
  length (filter (λ x, Task.completed x = false) l).

(** ** Listing *)

(** The lines [view_tasks] prints, by kind, with the values formatted in. *)
Inductive view_line : Type :=
| NoTasks                       (* No tasks found! Add some tasks ... *)
| NoneFound (status : str)      (* No {status} tasks found! *)
| RuleAfterBlank                (* a blank line and the rule of 60 = *)
| Heading                       (* YOUR TO-DO LIST *)
| Rule                          (* the rule of 60 = *)
| TaskLine (is_done : bool) (task_id : Z) (title : str)
| DescriptionLine (description : str)
| CreatedLine (date : str)
| CompletedLine (date : str).

(** How the listing of one task, or of all, ends. *)
Inductive view_end : Type :=
| Shown
| ValueError.                   (* fromisoformat rejects a stamp *)

(** [datetime.fromisoformat(stamp).strftime(...)], given what the pair of
    library calls makes of a stamp ([None]: [fromisoformat] raises). *)
Definition show_stamp (format_stamp : str → option str)
    (line : str → view_line) (stamp : str) : list view_line * view_end :=
  match format_stamp stamp with
  | Some date => ([line date], Shown)
  | None => ([], ValueError)
  end.

(** The body of the loop of [view_tasks], for one task. *)
Definition view_task (format_stamp : str → option str) (task : Task.t)
  : list view_line * view_end :=
  let head :=
    TaskLine (Task.completed task) (Task.id task) (Task.title task)
    :: (if truthy (Task.description task)
        then [DescriptionLine (Task.description task)] else []) in
  match show_stamp format_stamp CreatedLine (Task.created_at task) with
  | (created, ValueError) => (head ++ created, ValueError)
  | (created, Shown) =>
      match Task.completed task, Task.completed_at task with
      | true, Some stamp =>
          if truthy stamp then
            let '(completed, e) := show_stamp format_stamp CompletedLine stamp in
            (head ++ created ++ completed, e)
          else (head ++ created, Shown)
      | _, _ => (head ++ created, Shown)
      end
  end.

(** The [for] loop of [view_tasks]. *)
Fixpoint view_each (format_stamp : str → option str) (l : list Task.t)
  : list view_line * view_end :=
  match l with
  | [] => ([], Shown)
  | task :: rest =>
      match view_task format_stamp task with
      | (lines, ValueError) => (lines, ValueError)
      | (lines, Shown) =>
          let '(more, e) := view_each format_stamp rest in (lines ++ more, e)
      end
  end.

(** [filtered_tasks]: all the tasks, or the pending ones. *)
Definition shown_tasks (show_completed : bool) (self : TodoApp) : list Task.t :=
  if show_completed then tasks self
  else filter (λ x, Task.completed x = false) (tasks self).

Definition view_tasks (format_stamp : str → option str) (show_completed : bool)
    (self : TodoApp) : list view_line * view_end :=
  match tasks self with
  | [] => ([NoTasks], Shown)
  | _ :: _ =>
      let filtered_tasks := shown_tasks show_completed self in
      match filtered_tasks with
      | [] =>
          let status := if negb show_completed then lit "completed"
                        else lit "pending" in
          ([NoneFound status], Shown)
      | _ :: _ =>
          match view_each format_stamp filtered_tasks with
          | (lines, Shown) =>
              ([RuleAfterBlank; Heading; Rule] ++ lines ++ [RuleAfterBlank], Shown)
          | (lines, ValueError) =>
              ([RuleAfterBlank; Heading; Rule] ++ lines, ValueError)
          end
      end
  end.

(** The task headers among the lines printed, as (id, title) pairs. *)
Fixpoint listed (lines : list view_line) : list (Z * str) :=
  match lines with
  | [] => []
  | TaskLine _ task_id title :: rest => (task_id, title) :: listed rest
  | _ :: rest => listed rest
  end.

(** The stamps of a task that [view_tasks] formats can be formatted: the
    creation stamp, and the completion stamp of a completed task when it
    is not empty. *)
Definition stamps_readable (format_stamp : str → option str) (x : Task.t) : Prop :=
  is_Some (format_stamp (Task.created_at x))
  ∧ (∀ stamp, Task.completed x = true → Task.completed_at x = Some stamp →
              stamp ≠ [] → is_Some (format_stamp stamp)).

(** The header of a task in the listing. *)
Definition header (x : Task.t) : Z * str := (Task.id x, Task.title x).

(** ** Prompting *)

(** What one call of [input] meets; the end of the list is the end of the
    input. *)
Inductive keyboard : Type :=
| Line (typed : str)
| Interrupt.                    (* KeyboardInterrupt *)

Inductive input_value : Type :=
| IntValue (z : Z)
| StrValue (s : str).

Inductive prompt_line : Type :=
| CannotBeEmpty
| EnterValidNumber
| Goodbye.

Inductive prompt_end : Type :=
| Answered (v : option input_value)   (* return *)
| Exited                              (* exit(0) *)
| EndOfInput.                         (* EOFError, which is not caught *)

(** [get_user_input]; [to_int] is what [int] makes of a string ([None]:
    it raises [ValueError]), [want_int] is [input_type == int].  Each turn
    of the loop takes one element of [keys]; the result comes with the
    lines written by [print] (the prompt, which [input] writes, is not
    one of them) and the input left. *)
Fixpoint get_user_input (to_int : str → option Z) (want_int allow_empty : bool)
    (keys : list keyboard) : prompt_end * list prompt_line * list keyboard :=
  match keys with
  | [] => (EndOfInput, [], [])
  | Interrupt :: rest => (Exited, [Goodbye], rest)
  | Line typed :: rest =>
      let user_input := strip typed in
      if negb allow_empty && negb (truthy user_input) then
        let '(r, out, unread) := get_user_input to_int want_int allow_empty rest in
        (r, CannotBeEmpty :: out, unread)
      else if want_int then
        if truthy user_input then
          match to_int user_input with
          | Some z => (Answered (Some (IntValue z)), [], rest)
          | None =>
              let '(r, out, unread) := get_user_input to_int want_int allow_empty rest in
              (r, EnterValidNumber :: out, unread)
          end
        else (Answered None, [], rest)
      else
        (Answered (if truthy user_input then Some (StrValue user_input) else None),
         [], rest)
  end.

(** The lines [get_user_input] does not accept. *)
Definition refused (to_int : str → option Z) (want_int allow_empty : bool)
    (key : keyboard) : Prop :=
  ∃ typed, key = Line typed
    ∧ ((allow_empty = false ∧ strip typed = [])
       ∨ (want_int = true ∧ strip typed ≠ [] ∧ to_int (strip typed) = None)).

(** * Proofs *)

(** ** Running the monad *)

Lemma app_eta (app : TodoApp) :
  mkApp (filename app) (tasks app) (next_id app) = app.
Proof. by destruct app. Qed.

Lemma truthy_true (s : str) : truthy s = true ↔ s ≠ [].
Proof. destruct s; split; intros H; done. Qed.

Lemma removelast_snoc {A} (l : list A) (x : A) : removelast (l ++ [x]) = l.
Proof. apply removelast_last. Qed.

Lemma no_save_nil : no_save [].
Proof. constructor. Qed.

Lemma no_save_print (m : message) (tr : list event) :
  no_save tr → no_save (Print m :: tr).
Proof. intros H. by constructor. Qed.

Lemma no_save_prompt (t : str) (tr : list event) :
  no_save tr → no_save (Prompt t :: tr).
Proof. intros H. by constructor. Qed.

Create HintDb store.
#[local] Hint Resolve no_save_nil no_save_print no_save_prompt : store.

Lemma pop_snoc file l x n :
  pop (mkApp file (l ++ [x]) n) = mkOutcome (Returns tt) (mkApp file l n) [].
Proof.
  unfold pop, bind, get_self, set_tasks, raise. cbn -[removelast].
  destruct (l ++ [x]) eqn:Happ.
  - by apply app_nil in Happ as [_ ?].
  - cbn -[removelast]. by rewrite <- Happ, removelast_snoc.
Qed.

(** ** [add_task], case by case *)

Lemma add_task_rejected e title description app :
  strip title = [] →
  add_task e title description app
  = mkOutcome (Returns false) app [Print TitleEmpty].
Proof.
  intros Hempty. unfold add_task. by rewrite Hempty.
Qed.

Lemma add_task_saved e title description app :
  strip title ≠ [] → save_ok e = true →
  add_task e title description app
  = mkOutcome (Returns true)
      (mkApp (filename app) (tasks app ++ [new_task e title description app])
             (next_id app + 1))
      [Dump (filename app) (tasks app ++ [new_task e title description app]) true;
       Print (Added title (next_id app))].
Proof.
  intros Htitle Hsave. apply truthy_true in Htitle.
  unfold add_task, save_tasks. rewrite Htitle. cbn. by rewrite Hsave.
Qed.

Lemma add_task_save_failed e title description app :
  strip title ≠ [] → save_ok e = false →
  add_task e title description app
  = mkOutcome (Returns false) app
      [Dump (filename app) (tasks app ++ [new_task e title description app]) false;
       Print ErrorSaving].
Proof.
  intros Htitle Hsave. apply truthy_true in Htitle.
  unfold add_task, save_tasks. rewrite Htitle. cbn. rewrite Hsave.
  unfold bind. cbn -[pop]. rewrite pop_snoc. cbn.
  replace (next_id app + 1 - 1) with (next_id app) by lia.
  by rewrite app_eta.
Qed.

(** ** [find_task_by_id] *)

Lemma find_has_id task_id app :
  has_id task_id app →
  ∃ i x, find_in task_id (tasks app) = Some (i, x)
         ∧ tasks app !! i = Some x ∧ Task.id x = task_id.
Proof.
  unfold has_id, ids. intros (x & -> & Hx)%list_elem_of_fmap.
  destruct (list_find_elem_of (λ task, Task.id task = Task.id x) (tasks app) x)
    as [[i y] Hfind]; [done.. |].
  exists i, y. split; [done |].
  by apply list_find_Some in Hfind as (? & ? & _).
Qed.

Lemma find_missing task_id app :
  ¬ has_id task_id app → find_in task_id (tasks app) = None.
Proof.
  unfold has_id, ids. intros Hnot. apply list_find_None.
  apply Forall_forall. intros x Hx Heq. apply Hnot, list_elem_of_fmap. exists x. by subst.
Qed.

Lemma find_Some_has_id task_id app i x :
  find_in task_id (tasks app) = Some (i, x) → has_id task_id app.
Proof.
  intros (Hi & Hid & _)%list_find_Some. unfold has_id, ids.
  apply list_elem_of_fmap. exists x. split; [done |].
  by eapply list_elem_of_lookup_2.
Qed.

(** An update that keeps the id does not move what the search finds. *)
Lemma find_alter task_id (f : Task.t → Task.t) l i x :
  (∀ y, Task.id (f y) = Task.id y) →
  find_in task_id l = Some (i, x) →
  find_in task_id (alter f i l) = Some (i, f x).
Proof.
  intros Hf. revert i. induction l as [|y l IH]; intros i Hfind; [done |].
  cbn in Hfind. cbn. destruct (decide (Task.id y = task_id)) as [Hy|Hy].
  - injection Hfind as <- <-. cbn. rewrite decide_True; [done | by rewrite Hf].
  - destruct (find_in task_id l) as [[j z]|] eqn:Hl; [|done].
    injection Hfind as <- <-. cbn. rewrite decide_False; [|done].
    by rewrite (IH j eq_refl).
Qed.

(** ** [complete_task] and [uncomplete_task], case by case *)

Lemma complete_task_not_found e task_id app :
  find_in task_id (tasks app) = None →
  complete_task e task_id app
  = mkOutcome (Returns false) app [Print (NotFound task_id)].
Proof. intros Hfind. unfold complete_task, find_task_by_id, bind. cbn. by rewrite Hfind. Qed.

Lemma complete_task_already e task_id app i x :
  find_in task_id (tasks app) = Some (i, x) → Task.completed x = true →
  complete_task e task_id app
  = mkOutcome (Returns true) app [Print (AlreadyCompleted (Task.title x))].
Proof.
  intros Hfind Hdone. unfold complete_task, find_task_by_id, bind. cbn.
  rewrite Hfind. cbn. by rewrite Hdone.
Qed.

Lemma complete_task_pending e task_id app i x :
  find_in task_id (tasks app) = Some (i, x) → Task.completed x = false →
  complete_task e task_id app
  = let marked := alter (mark_completed (now e)) i (tasks app) in
    mkOutcome (Returns (save_ok e))
      (mkApp (filename app) marked (next_id app))
      (Dump (filename app) marked (save_ok e)
       :: [Print (if save_ok e then MarkedCompleted (Task.title x) else ErrorSaving)]).
Proof.
  intros Hfind Hdone. unfold complete_task, find_task_by_id, save_tasks, bind.
  cbn. rewrite Hfind. cbn. rewrite Hdone. cbn.
  rewrite list_alter_alter_eq. by destruct (save_ok e).
Qed.

Lemma uncomplete_task_not_found e task_id app :
  find_in task_id (tasks app) = None →
  uncomplete_task e task_id app
  = mkOutcome (Returns false) app [Print (NotFound task_id)].
Proof. intros Hfind. unfold uncomplete_task, find_task_by_id, bind. cbn. by rewrite Hfind. Qed.

Lemma uncomplete_task_already e task_id app i x :
  find_in task_id (tasks app) = Some (i, x) → Task.completed x = false →
  uncomplete_task e task_id app
  = mkOutcome (Returns true) app [Print (AlreadyPending (Task.title x))].
Proof.
  intros Hfind Hdone. unfold uncomplete_task, find_task_by_id, bind. cbn.
  rewrite Hfind. cbn. by rewrite Hdone.
Qed.

Lemma uncomplete_task_completed e task_id app i x :
  find_in task_id (tasks app) = Some (i, x) → Task.completed x = true →
  uncomplete_task e task_id app
  = let marked := alter mark_pending i (tasks app) in
    mkOutcome (Returns (save_ok e))
      (mkApp (filename app) marked (next_id app))
      (Dump (filename app) marked (save_ok e)
       :: [Print (if save_ok e then MarkedPending (Task.title x) else ErrorSaving)]).
Proof.
  intros Hfind Hdone. unfold uncomplete_task, find_task_by_id, save_tasks, bind.
  cbn. rewrite Hfind. cbn. rewrite Hdone. cbn.
  rewrite list_alter_alter_eq. by destruct (save_ok e).
Qed.

(** ** [delete_task] and [update_task], case by case *)

Lemma delete_task_not_found e task_id app :
  find_in task_id (tasks app) = None →
  delete_task e task_id app
  = mkOutcome (Returns false) app [Print (NotFound task_id)].
Proof. intros Hfind. unfold delete_task, find_task_by_id, bind. cbn. by rewrite Hfind. Qed.

Lemma delete_task_no_input e task_id app i x :
  find_in task_id (tasks app) = Some (i, x) → answer e = None →
  delete_task e task_id app
  = mkOutcome (Raises EOFError) app [Prompt (Task.title x)].
Proof.
  intros Hfind Hans. unfold delete_task, find_task_by_id, input_lower, bind.
  cbn. rewrite Hfind. cbn. by rewrite Hans.
Qed.

Lemma delete_task_cancelled e task_id app i x line :
  find_in task_id (tasks app) = Some (i, x) →
  answer e = Some line → lower line ≠ lit "y" →
  delete_task e task_id app
  = mkOutcome (Returns false) app [Prompt (Task.title x); Print DeletionCancelled].
Proof.
  intros Hfind Hans Hno. unfold delete_task, find_task_by_id, input_lower, bind.
  cbn. rewrite Hfind. cbn. rewrite Hans. cbn.
  by rewrite bool_decide_eq_true_2.
Qed.

Lemma delete_task_confirmed e task_id app i x line :
  find_in task_id (tasks app) = Some (i, x) →
  answer e = Some line → lower line = lit "y" →
  delete_task e task_id app
  = let kept := filter (λ y, Task.id y ≠ task_id) (tasks app) in
    mkOutcome (Returns (save_ok e))
      (mkApp (filename app) kept (next_id app))
      (Prompt (Task.title x) :: Dump (filename app) kept (save_ok e)
       :: [Print (if save_ok e then Deleted (Task.title x) else ErrorSaving)]).
Proof.
  intros Hfind Hans Hyes.
  unfold delete_task, find_task_by_id, input_lower, save_tasks, bind.
  cbn. rewrite Hfind. cbn. rewrite Hans. cbn.
  rewrite bool_decide_eq_false_2; [|by intros []].
  cbn. by destruct (save_ok e).
Qed.

Lemma update_task_not_found e task_id title description app :
  find_in task_id (tasks app) = None →
  update_task e task_id title description app
  = mkOutcome (Returns false) app [Print (NotFound task_id)].
Proof. intros Hfind. unfold update_task, find_task_by_id, bind. cbn. by rewrite Hfind. Qed.

Lemma update_task_rejected e task_id new_title description app i x :
  find_in task_id (tasks app) = Some (i, x) → strip new_title = [] →
  update_task e task_id (Some new_title) description app
  = mkOutcome (Returns false) app [Print TitleEmpty].
Proof.
  intros Hfind Hempty. unfold update_task, find_task_by_id, bind. cbn.
  rewrite Hfind. cbn. by rewrite Hempty.
Qed.

Lemma update_task_applied e task_id title description app i x :
  find_in task_id (tasks app) = Some (i, x) →
  (∀ new_title, title = Some new_title → strip new_title ≠ []) →
  update_task e task_id title description app
  = let updated := alter (apply_update title description) i (tasks app) in
    mkOutcome (Returns (save_ok e))
      (mkApp (filename app) updated (next_id app))
      (Dump (filename app) updated (save_ok e)
       :: if save_ok e then [Print (Updated task_id)] else [Print ErrorSaving]).
Proof.
  intros Hfind Htitle.
  unfold update_task, find_task_by_id, save_tasks, modify_task, bind.
  cbn. rewrite Hfind. cbn.
  destruct title as [new_title|], description as [d|]; cbn.
  - specialize (Htitle new_title eq_refl). apply truthy_true in Htitle.
    rewrite Htitle. cbn. rewrite list_alter_alter_eq. by destruct (save_ok e).
  - specialize (Htitle new_title eq_refl). apply truthy_true in Htitle.
    rewrite Htitle. cbn. by destruct (save_ok e).
  - by destruct (save_ok e).
  - rewrite (list_alter_id (apply_update None None)); [|done].
    rewrite app_eta. by destruct (save_ok e).
Qed.

(** ** Trimming *)

Lemma lstrip_nil_iff (s : str) :
  lstrip s = [] ↔ Forall (λ c, isspace c = true) s.
Proof.
  induction s as [|c s IH]; cbn.
  - split; [constructor | done].
  - destruct (isspace c) eqn:Hc.
    + rewrite IH. split; [by constructor | by inversion 1].
    + split; [done | inversion 1; congruence].
Qed.

Lemma lstrip_space_suffix (s : str) :
  Forall (λ c, isspace c = true) (lstrip s) → Forall (λ c, isspace c = true) s.
Proof.
  induction s as [|c s IH]; cbn; [done |].
  destruct (isspace c) eqn:Hc; [|done].
  intros H. constructor; [done | by apply IH].
Qed.

(** A title is rejected exactly when it is empty or all white space. *)
Lemma strip_nil_iff (s : str) :
  strip s = [] ↔ Forall (λ c, isspace c = true) s.
Proof.
  unfold strip, rstrip. split.
  - intros H. apply (f_equal (@rev N)) in H. rewrite rev_involutive in H.
    cbn in H. apply lstrip_nil_iff, List.Forall_rev in H.
    rewrite rev_involutive in H. by apply lstrip_space_suffix.
  - intros H. apply lstrip_nil_iff in H. by rewrite H.
Qed.

(** ** Add: validation and rollback *)

(** C1: when [add_task] gets a title that is not empty once trimmed and
    the save fails, it returns [False] and leaves the store as it was: the
    task it appended (the failed write was given the list with it) is
    popped and [next_id] is back at its value, so the list and the counter
    are those of before the call. *)
Theorem add_task_rolls_back_on_save_failure e title description app :
  strip title ≠ [] → save_ok e = false →
  let o := add_task e title description app in
  result o = Returns false
  ∧ self_after o = app
  ∧ tasks (self_after o) = tasks app
  ∧ next_id (self_after o) = next_id app
  ∧ trace o = [Dump (filename app)
                    (tasks app ++ [new_task e title description app]) false;
               Print ErrorSaving].
Proof.
  intros Htitle Hsave. cbn zeta.
  by rewrite add_task_save_failed.
Qed.

Lemma add_task_rolls_back_witness :
  let o := add_task env_fail (lit "C") [] sample_app in
  result o = Returns false
  ∧ self_after o = sample_app
  ∧ tasks (self_after o) = tasks sample_app
  ∧ next_id (self_after o) = next_id sample_app
  ∧ trace o = [Dump (filename sample_app)
                    (tasks sample_app ++ [new_task env_fail (lit "C") [] sample_app])
                    false;
               Print ErrorSaving].
Proof.
  apply (add_task_rolls_back_on_save_failure env_fail (lit "C") [] sample_app).
  - vm_compute. discriminate.
  - reflexivity.
Defined.

(** C6: [add_task] with a title that is empty once trimmed (empty, or
    white space only) returns [False] before touching anything: the store,
    so its list and its counter, is unchanged, and the trace holds the
    error line only, no write of the file. *)
Theorem add_task_rejects_blank_title e title description app :
  strip title = [] →
  let o := add_task e title description app in
  result o = Returns false
  ∧ self_after o = app
  ∧ length (tasks (self_after o)) = length (tasks app)
  ∧ next_id (self_after o) = next_id app
  ∧ trace o = [Print TitleEmpty]
  ∧ no_save (trace o).
Proof.
  intros Hblank. cbn zeta. rewrite add_task_rejected; [|done].
  cbn. repeat split; auto with store.
Qed.

Lemma add_task_rejects_blank_witness :
  let o := add_task env_ok (lit "   ") (lit "d") sample_app in
  result o = Returns false
  ∧ self_after o = sample_app
  ∧ length (tasks (self_after o)) = length (tasks sample_app)
  ∧ next_id (self_after o) = next_id sample_app
  ∧ trace o = [Print TitleEmpty]
  ∧ no_save (trace o).
Proof.
  apply (add_task_rejects_blank_title env_ok (lit "   ") (lit "d") sample_app).
  reflexivity.
Defined.

(** ** Statistics *)

Lemma sum_of_ones {A} (l : list A) (acc : Z) :
  foldl Z.add acc (map (λ _, 1) l) = acc + Z.of_nat (length l).
Proof.
  revert acc. induction l as [|x l IH]; intros acc; cbn [map foldl length].
  - lia.
  - rewrite IH. lia.
Qed.

(** C9: for every store, [get_task_stats] returns (and does not raise)
    counts with total = completed + pending, where completed is the number
    of tasks whose [completed] is true and total is the length of the
    list; the store is the same after the call and nothing is printed or
    written. *)
Theorem get_task_stats_counts app :
  ∃ st, result (get_task_stats app) = Returns st
        ∧ total st = completed st + pending st
        ∧ completed st
          = Z.of_nat (length (filter (λ x, Task.completed x = true) (tasks app)))
        ∧ total st = Z.of_nat (length (tasks app))
        ∧ self_after (get_task_stats app) = app
        ∧ trace (get_task_stats app) = [].
Proof.
  eexists. split; [reflexivity |]. cbn.
  rewrite sum_of_ones. repeat split; lia.
Qed.

(** ** Loading *)

(** The encoding of task lists as parsed values loses nothing. *)
Lemma task_to_py_inj x y : task_to_py x = task_to_py y → x = y.
Proof.
  destruct x as [i1 t1 d1 c1 s1 a1], y as [i2 t2 d2 c2 s2 a2].
  unfold task_to_py. cbn. intros H. injection H as -> -> -> -> -> Hstamp.
  destruct a1, a2; try discriminate Hstamp; try (injection Hstamp as ->); done.
Qed.

Lemma tasks_to_py_inj l k : tasks_to_py l = tasks_to_py k → l = k.
Proof.
  unfold tasks_to_py. intros H. injection H as H.
  revert k H. induction l as [|x l IH]; intros [|y k] H; try done.
  cbn [map] in H.
  remember (task_to_py x) as px eqn:Hpx. remember (task_to_py y) as py eqn:Hpy.
  injection H as Hx Hl. subst px py. f_equal; [by apply task_to_py_inj | by apply IH].
Qed.

(** C10: [load_tasks] checks nothing about what it loads.  Whatever value
    the parser builds from the file is returned as it is, with nothing
    printed; in particular the encoding of any task list comes back as it
    is, also one with a repeated id, a blank title and a pending task with
    a completion stamp.  The handler's empty list is what a missing file
    and a parse failure give, and nothing else gives a value that is not
    the parsed one. *)
Theorem load_tasks_does_not_validate :
  (∀ v, load_tasks (mkFileEnv true (Parsed v)) = (inl v, []))
  ∧ (∀ l, load_tasks (mkFileEnv true (Parsed (tasks_to_py l)))
          = (inl (tasks_to_py l), []))
  ∧ (load_tasks (mkFileEnv true (Parsed (tasks_to_py ill_formed_tasks)))
       = (inl (tasks_to_py ill_formed_tasks), [])
     ∧ ¬ NoDup (ids ill_formed_tasks)
     ∧ Exists (λ x, strip (Task.title x) = []) ill_formed_tasks
     ∧ ¬ Forall stamp_consistent ill_formed_tasks)
  ∧ (∀ r, load_tasks (mkFileEnv false r) = (inl (PyList []), []))
  ∧ load_tasks (mkFileEnv true JSONDecodeError)
    = (inl (PyList []), [Print ErrorLoading])
  ∧ load_tasks (mkFileEnv true FileNotFoundError)
    = (inl (PyList []), [Print ErrorLoading])
  ∧ (∀ f v out,
       load_tasks f = (inl v, out) →
       (path_exists f = true ∧ read f = Parsed v)
       ∨ (v = PyList []
          ∧ (path_exists f = false ∨ read f = JSONDecodeError
             ∨ read f = FileNotFoundError))).
Proof.
  repeat apply conj; try done.
  - intros Hdup. cbn in Hdup. apply NoDup_cons in Hdup as [Hin _].
    apply Hin. by left.
  - by left.
  - intros Hall. apply Forall_cons in Hall as [[Hstamp _] _].
    by specialize (Hstamp eq_refl).
  - intros [ex r] v out. unfold load_tasks. cbn.
    destruct ex; [destruct r |]; intros H; simplify_eq; naive_solver.
Qed.

(** An exception the handler does not name escapes [load_tasks]. *)
Lemma load_tasks_other_error :
  load_tasks (mkFileEnv true OtherError) = (inr Uncaught, []).
Proof. reflexivity. Qed.

(** ** Delete *)

(** The cancellation line is printed on the cancellation path only. *)
Lemma delete_task_cancel_line e task_id app :
  Print DeletionCancelled ∈ trace (delete_task e task_id app) →
  has_id task_id app ∧ declines e.
Proof.
  destruct (find_in task_id (tasks app)) as [[i x]|] eqn:Hfind.
  - destruct (answer e) as [line|] eqn:Hans.
    + destruct (decide (lower line = lit "y")) as [Hyes|Hno].
      * rewrite (delete_task_confirmed _ _ _ _ _ _ Hfind Hans Hyes). cbn.
        intros Hin. exfalso.
        repeat (apply elem_of_cons in Hin as [Hin|Hin]; [by destruct (save_ok e) |]).
        by apply elem_of_nil in Hin.
      * intros _. split; [by eapply find_Some_has_id | by exists line].
    + rewrite (delete_task_no_input _ _ _ _ _ Hfind Hans). cbn.
      intros Hin. exfalso.
      apply elem_of_cons in Hin as [Hin|Hin]; [done | by apply elem_of_nil in Hin].
  - rewrite (delete_task_not_found _ _ _ Hfind). cbn.
    intros Hin. exfalso.
    apply elem_of_cons in Hin as [Hin|Hin]; [done | by apply elem_of_nil in Hin].
Qed.

(** C3, as the code has it: for every store with a task of the given id,
    [delete_task] answered with anything but y/Y leaves the store as it
    is and writes nothing; it prints the cancellation line, which no other
    path of [delete_task] prints.  The value it returns is [False], the
    value the not-found path returns: the return value does not tell a
    cancellation from a failure, only the printed line does. *)
Theorem delete_task_cancel_is_silent_noop e task_id app :
  has_id task_id app → declines e →
  let o := delete_task e task_id app in
  result o = Returns false
  ∧ self_after o = app
  ∧ no_save (trace o)
  ∧ (∃ title, trace o = [Prompt title; Print DeletionCancelled])
  ∧ (∀ e' other app',
       Print DeletionCancelled ∈ trace (delete_task e' other app') →
       has_id other app' ∧ declines e')
  ∧ (∀ e' missing,
       ¬ has_id missing app →
       result (delete_task e' missing app) = result o
       ∧ trace (delete_task e' missing app) = [Print (NotFound missing)]).
Proof.
  intros (i & x & Hfind & _ & _)%find_has_id (line & Hans & Hno). cbn zeta.
  rewrite (delete_task_cancelled _ _ _ _ _ _ Hfind Hans Hno).
  cbn [result self_after trace].
  split_and!; [done | done | auto with store | by eexists | |].
  - apply delete_task_cancel_line.
  - intros e' missing Hmissing%find_missing.
    by rewrite (delete_task_not_found _ _ _ Hmissing).
Qed.

Lemma delete_task_cancel_witness :
  let o := delete_task env_no 1 sample_app in
  result o = Returns false
  ∧ self_after o = sample_app
  ∧ no_save (trace o)
  ∧ (∃ title, trace o = [Prompt title; Print DeletionCancelled])
  ∧ (∀ e' other app',
       Print DeletionCancelled ∈ trace (delete_task e' other app') →
       has_id other app' ∧ declines e')
  ∧ (∀ e' missing,
       ¬ has_id missing sample_app →
       result (delete_task e' missing sample_app) = result o
       ∧ trace (delete_task e' missing sample_app) = [Print (NotFound missing)]).
Proof.
  apply (delete_task_cancel_is_silent_noop env_no 1 sample_app).
  - unfold has_id. cbn. left.
  - exists (lit "n"). split; [reflexivity | vm_compute; discriminate].
Defined.

(** C3, as the claim has it, fails on the return value: on the store with
    tasks 1 and 2, declining the deletion of task 1 returns [False], which
    is also what deleting the missing task 5 returns and what a confirmed
    deletion whose save fails returns. *)
Lemma delete_task_cancel_returns_failure_value :
  has_id 1 sample_app ∧ declines env_no
  ∧ result (delete_task env_no 1 sample_app) = Returns false
  ∧ ¬ has_id 5 sample_app
  ∧ result (delete_task env_no 5 sample_app) = Returns false
  ∧ confirms env_fail
  ∧ result (delete_task env_fail 1 sample_app) = Returns false.
Proof.
  split_and!; try reflexivity.
  - unfold has_id. cbn. left.
  - exists (lit "n"). split; [reflexivity | vm_compute; discriminate].
  - unfold has_id. cbn. intros Hin.
    repeat (apply elem_of_cons in Hin as [Hin|Hin]; [done |]).
    by apply elem_of_nil in Hin.
  - by exists (lit "y").
Qed.

Lemma filter_all {A} (P : A → Prop) `{∀ x, Decision (P x)} (l : list A) :
  Forall P l → filter P l = l.
Proof.
  induction 1 as [|x l Hx _ IH]; [done |].
  by rewrite filter_cons_True, IH.
Qed.

(** C5: for every store with unique ids and a task of the given id,
    [delete_task] answered y/Y takes exactly that task out: the list was
    [before ++ x :: after] with [x] the task of that id, and it is
    [before ++ after] afterwards, so every other task is still there, in
    the same order and with the same fields.  (The list is the same
    whether or not the save then succeeds; the call returns the outcome of
    the save.) *)
Theorem delete_task_removes_exactly_one e task_id app :
  unique_ids app → has_id task_id app → confirms e →
  let o := delete_task e task_id app in
  ∃ before x after,
    tasks app = before ++ x :: after
    ∧ Task.id x = task_id
    ∧ tasks (self_after o) = before ++ after
    ∧ length (tasks app) = S (length (tasks (self_after o)))
    ∧ ¬ has_id task_id (self_after o)
    ∧ next_id (self_after o) = next_id app
    ∧ result o = Returns (save_ok e).
Proof.
  intros Huniq Hhas (line & Hans & Hyes). cbn zeta.
  destruct (find_has_id _ _ Hhas) as (i & x & Hfind & Hi & Hx).
  rewrite (delete_task_confirmed _ _ _ _ _ _ Hfind Hans Hyes). cbn.
  destruct (list_elem_of_split (tasks app) x) as (before & after & Hsplit);
    [by eapply list_elem_of_lookup_2 |].
  exists before, x, after.
  unfold unique_ids, ids in Huniq. rewrite Hsplit in Huniq |- *.
  rewrite fmap_app, fmap_cons in Huniq.
  apply NoDup_app in Huniq as (_ & Hbefore & Hafter%NoDup_cons).
  destruct Hafter as [Hafter _].
  assert (Hkeep1 : Forall (λ y, Task.id y ≠ task_id) before).
  { apply Forall_forall. intros y Hy Heq. apply (Hbefore (Task.id y)).
    - by apply list_elem_of_fmap_2.
    - rewrite Heq, <- Hx. left. }
  assert (Hkeep2 : Forall (λ y, Task.id y ≠ task_id) after).
  { apply Forall_forall. intros y Hy Heq. apply Hafter.
    rewrite Hx, <- Heq. by apply list_elem_of_fmap_2. }
  rewrite filter_app, filter_cons_False by (by intros []).
  rewrite !filter_all by done.
  split_and!; try done.
  - rewrite !length_app. cbn. lia.
  - unfold has_id, ids. cbn. rewrite fmap_app.
    intros [Hin|Hin]%elem_of_app;
      apply list_elem_of_fmap in Hin as (y & Heq & Hy).
    + rewrite Forall_forall in Hkeep1. by apply (Hkeep1 y).
    + rewrite Forall_forall in Hkeep2. by apply (Hkeep2 y).
Qed.

Lemma delete_task_removes_witness :
  let o := delete_task env_ok 1 sample_app in
  ∃ before x after,
    tasks sample_app = before ++ x :: after
    ∧ Task.id x = 1
    ∧ tasks (self_after o) = before ++ after
    ∧ length (tasks sample_app) = S (length (tasks (self_after o)))
    ∧ ¬ has_id 1 (self_after o)
    ∧ next_id (self_after o) = next_id sample_app
    ∧ result o = Returns (save_ok env_ok).
Proof.
  apply (delete_task_removes_exactly_one env_ok 1 sample_app).
  - unfold unique_ids. cbn. apply NoDup_cons. split; [|apply NoDup_singleton].
    by intros ?%list_elem_of_singleton.
  - unfold has_id. cbn. left.
  - exists (lit "Y"). split; reflexivity.
Defined.

(** ** Complete and Uncomplete *)

Lemma mark_completed_id stamp x : Task.id (mark_completed stamp x) = Task.id x.
Proof. reflexivity. Qed.

Lemma mark_pending_completed stamp x : mark_pending (mark_completed stamp x) = reverted x.
Proof. reflexivity. Qed.

(** C7: for every store with a task of the given id, a second
    [complete_task] right after a first one changes nothing: the store
    after two calls is the store after one.  The second call finds the
    task completed, returns [True], prints that it is already completed
    and does not write the file; this holds whether or not the save of the
    first call succeeded. *)
Theorem complete_task_idempotent e1 e2 task_id app :
  has_id task_id app →
  let once := complete_task e1 task_id app in
  let twice := complete_task e2 task_id (self_after once) in
  self_after twice = self_after once
  ∧ result twice = Returns true
  ∧ no_save (trace twice)
  ∧ (∃ title, trace twice = [Print (AlreadyCompleted title)])
  ∧ (∃ i x, find_in task_id (tasks (self_after twice)) = Some (i, x)
            ∧ Task.completed x = true).
Proof.
  intros (i & x & Hfind & _ & _)%find_has_id. cbn zeta.
  destruct (Task.completed x) eqn:Hdone.
  - rewrite (complete_task_already e1 _ _ _ _ Hfind Hdone). cbn [self_after].
    rewrite (complete_task_already e2 _ _ _ _ Hfind Hdone). cbn.
    split_and!; eauto with store.
  - rewrite (complete_task_pending e1 _ _ _ _ Hfind Hdone). cbn [self_after].
    pose proof (find_alter task_id (mark_completed (now e1)) _ _ _
                  (mark_completed_id (now e1)) Hfind) as Hfind'.
    rewrite (complete_task_already e2 task_id
               (mkApp _ (alter _ i (tasks app)) _) i _ Hfind' eq_refl).
    cbn. split_and!; eauto with store.
Qed.

Lemma complete_task_idempotent_witness :
  let once := complete_task env_fail 2 sample_app in
  let twice := complete_task env_ok 2 (self_after once) in
  self_after twice = self_after once
  ∧ result twice = Returns true
  ∧ no_save (trace twice)
  ∧ (∃ title, trace twice = [Print (AlreadyCompleted title)])
  ∧ (∃ i x, find_in 2 (tasks (self_after twice)) = Some (i, x)
            ∧ Task.completed x = true).
Proof.
  apply (complete_task_idempotent env_fail env_ok 2 sample_app).
  unfold has_id. cbn. right. left.
Defined.

(** With unique ids, updating the position of the task with a given id is
    updating every task with that id. *)
Lemma alter_unique (f : Task.t → Task.t) l i x :
  NoDup (ids l) → l !! i = Some x →
  alter f i l = (λ y, if decide (Task.id y = Task.id x) then f y else y) <$> l.
Proof.
  revert i. induction l as [|y l IH]; intros i Hnodup Hi; [done |].
  unfold ids in Hnodup. rewrite fmap_cons in Hnodup.
  apply NoDup_cons in Hnodup as [Hy Hnodup].
  destruct i as [|i]; cbn in Hi |- *.
  - injection Hi as ->. rewrite decide_True by done. f_equal.
    clear IH. induction l as [|z l IH]; [done |].
    rewrite fmap_cons in Hy, Hnodup. apply not_elem_of_cons in Hy as [Hzx Hy].
    apply NoDup_cons in Hnodup as [_ Hnodup].
    cbn. rewrite decide_False by done. f_equal. by apply IH.
  - rewrite decide_False.
    + f_equal. by apply IH.
    + intros Heq. apply Hy. rewrite Heq. apply list_elem_of_fmap_2.
      by eapply list_elem_of_lookup_2.
Qed.

(** C4: for every store with unique ids and a task of the given id,
    [complete_task] followed by [uncomplete_task] on that id, the saves
    succeeding, both return [True] and leave the list as it was except
    that the task of that id has [completed] false and no [completed_at]:
    its id, title, description and [created_at] are those of before, and
    every other task is as before. *)
Theorem complete_then_uncomplete_restores e1 e2 task_id app :
  unique_ids app → has_id task_id app →
  save_ok e1 = true → save_ok e2 = true →
  let o1 := complete_task e1 task_id app in
  let o2 := uncomplete_task e2 task_id (self_after o1) in
  result o1 = Returns true
  ∧ result o2 = Returns true
  ∧ tasks (self_after o2)
    = (λ x, if decide (Task.id x = task_id) then reverted x else x) <$> tasks app
  ∧ next_id (self_after o2) = next_id app
  ∧ filename (self_after o2) = filename app.
Proof.
  intros Huniq (i & x & Hfind & Hi & Hx)%find_has_id Hsave1 Hsave2. cbn zeta.
  pose proof (alter_unique mark_pending _ _ _ Huniq Hi) as Hrevert.
  rewrite Hx in Hrevert.
  destruct (Task.completed x) eqn:Hdone.
  - rewrite (complete_task_already e1 _ _ _ _ Hfind Hdone). cbn [self_after].
    rewrite (uncomplete_task_completed e2 _ _ _ _ Hfind Hdone). cbn.
    by rewrite Hsave2, Hrevert.
  - rewrite (complete_task_pending e1 _ _ _ _ Hfind Hdone). cbn [self_after].
    pose proof (find_alter task_id (mark_completed (now e1)) _ _ _
                  (mark_completed_id (now e1)) Hfind) as Hfind'.
    rewrite (uncomplete_task_completed e2 task_id
               (mkApp _ (alter _ i (tasks app)) _) i _ Hfind' eq_refl).
    cbn. rewrite Hsave1, Hsave2, list_alter_alter_eq.
    (* completing and reverting is reverting: the stamp is overwritten *)
    change (mark_pending ∘ mark_completed (now e1)) with mark_pending.
    by rewrite Hrevert.
Qed.

Lemma complete_then_uncomplete_witness :
  let o1 := complete_task env_ok 2 sample_app in
  let o2 := uncomplete_task env_ok 2 (self_after o1) in
  result o1 = Returns true
  ∧ result o2 = Returns true
  ∧ tasks (self_after o2)
    = (λ x, if decide (Task.id x = 2) then reverted x else x) <$> tasks sample_app
  ∧ next_id (self_after o2) = next_id sample_app
  ∧ filename (self_after o2) = filename sample_app.
Proof.
  apply (complete_then_uncomplete_restores env_ok env_ok 2 sample_app).
  - unfold unique_ids. cbn. apply NoDup_cons. split; [|apply NoDup_singleton].
    by intros ?%list_elem_of_singleton.
  - unfold has_id. cbn. right. left.
  - reflexivity.
  - reflexivity.
Defined.

(** ** The completion stamp invariant *)

Lemma new_task_consistent e title description app :
  stamp_consistent (new_task e title description app).
Proof. done. Qed.

Lemma apply_update_consistent title description x :
  stamp_consistent x → stamp_consistent (apply_update title description x).
Proof. by destruct title, description. Qed.

Lemma mark_completed_consistent stamp x : stamp_consistent (mark_completed stamp x).
Proof. done. Qed.

Lemma mark_pending_consistent x : stamp_consistent (mark_pending x).
Proof. done. Qed.

#[local] Hint Resolve new_task_consistent apply_update_consistent
  mark_completed_consistent mark_pending_consistent : store.

Lemma add_task_consistent e title description app :
  store_consistent app →
  store_consistent (self_after (add_task e title description app)).
Proof.
  intros Happ. destruct (decide (strip title = [])) as [Hblank|Htitle].
  - by rewrite add_task_rejected.
  - destruct (save_ok e) eqn:Hsave.
    + rewrite add_task_saved by done. unfold store_consistent. cbn.
      apply Forall_app. split; [done |]. auto with store.
    + by rewrite add_task_save_failed.
Qed.

Lemma update_task_consistent e task_id title description app :
  store_consistent app →
  store_consistent (self_after (update_task e task_id title description app)).
Proof.
  intros Happ.
  destruct (find_in task_id (tasks app)) as [[i x]|] eqn:Hfind;
    [|by rewrite update_task_not_found].
  destruct title as [new_title|].
  - destruct (decide (strip new_title = [])) as [Hblank|Htitle].
    + by rewrite (update_task_rejected _ _ _ _ _ _ _ Hfind Hblank).
    + rewrite (update_task_applied _ _ _ _ _ _ _ Hfind); [|by intros ? [= <-]].
      apply Forall_alter; auto with store.
  - rewrite (update_task_applied _ _ _ _ _ _ _ Hfind); [|done].
    apply Forall_alter; auto with store.
Qed.

Lemma complete_task_consistent e task_id app :
  store_consistent app →
  store_consistent (self_after (complete_task e task_id app)).
Proof.
  intros Happ.
  destruct (find_in task_id (tasks app)) as [[i x]|] eqn:Hfind;
    [|by rewrite complete_task_not_found].
  destruct (Task.completed x) eqn:Hdone.
  - by rewrite (complete_task_already _ _ _ _ _ Hfind Hdone).
  - rewrite (complete_task_pending _ _ _ _ _ Hfind Hdone).
    apply Forall_alter; auto with store.
Qed.

Lemma uncomplete_task_consistent e task_id app :
  store_consistent app →
  store_consistent (self_after (uncomplete_task e task_id app)).
Proof.
  intros Happ.
  destruct (find_in task_id (tasks app)) as [[i x]|] eqn:Hfind;
    [|by rewrite uncomplete_task_not_found].
  destruct (Task.completed x) eqn:Hdone.
  - rewrite (uncomplete_task_completed _ _ _ _ _ Hfind Hdone).
    apply Forall_alter; auto with store.
  - by rewrite (uncomplete_task_already _ _ _ _ _ Hfind Hdone).
Qed.

Lemma delete_task_consistent e task_id app :
  store_consistent app →
  store_consistent (self_after (delete_task e task_id app)).
Proof.
  intros Happ.
  destruct (find_in task_id (tasks app)) as [[i x]|] eqn:Hfind;
    [|by rewrite delete_task_not_found].
  destruct (answer e) as [line|] eqn:Hans;
    [|by rewrite (delete_task_no_input _ _ _ _ _ Hfind Hans)].
  destruct (decide (lower line = lit "y")) as [Hyes|Hno].
  - rewrite (delete_task_confirmed _ _ _ _ _ _ Hfind Hans Hyes).
    unfold store_consistent in *. cbn.
    rewrite Forall_forall in Happ. apply Forall_forall.
    intros y [_ Hy]%list_elem_of_filter. by apply Happ.
  - by rewrite (delete_task_cancelled _ _ _ _ _ _ Hfind Hans Hno).
Qed.

(** C8: each of Add, Update, Complete, Uncomplete and Delete keeps the
    invariant that a task is pending exactly when it has no completion
    stamp: if it holds of every task of the store before the call, it
    holds of every task after it, whatever the environment does (save
    failing, deletion declined, no input). *)
Theorem operations_keep_stamp_invariant e op app :
  store_consistent app → store_consistent (self_after (run e op app)).
Proof.
  destruct op; cbn [run].
  - apply add_task_consistent.
  - apply update_task_consistent.
  - apply complete_task_consistent.
  - apply uncomplete_task_consistent.
  - apply delete_task_consistent.
Qed.

Lemma operations_keep_stamp_invariant_witness :
  store_consistent (self_after (run env_ok (Complete 1) sample_app)).
Proof.
  apply (operations_keep_stamp_invariant env_ok (Complete 1) sample_app).
  by repeat constructor.
Defined.

(** ** Ids handed out by Add *)

Lemma bind_returns {A B} (m : M A) (k : A → M B) self a self' tr :
  m self = mkOutcome (Returns a) self' tr →
  bind m k self
  = mkOutcome (result (k a self')) (self_after (k a self')) (tr ++ trace (k a self')).
Proof. intros Hm. unfold bind. by rewrite Hm. Qed.

Lemma bind_ret_returns {A B} (m : M A) (f : A → B) self a :
  result (m self) = Returns a →
  bind m (λ x, ret (f x)) self
  = mkOutcome (Returns (f a)) (self_after (m self)) (trace (m self) ++ []).
Proof. intros Hm. unfold bind. by rewrite Hm. Qed.

(** [__init__] starts the counter above every id of the loaded list. *)
Lemma init_counter_above file loaded : counter_above (init file loaded).
Proof.
  unfold counter_above, init, _get_next_id. cbn.
  destruct loaded as [|x l]; [done |].
  assert (Hmax : ∀ l m, m ≤ foldl (λ m y, Z.max m (Task.id y)) m l
                        ∧ Forall (λ y, Task.id y
                                       ≤ foldl (λ m y, Z.max m (Task.id y)) m l) l).
  { clear. induction l as [|y l IH]; intros m; cbn; [split; [lia | done] |].
    destruct (IH (Z.max m (Task.id y))) as [Hm Hl].
    split; [lia |]. constructor; [lia | done]. }
  destruct (Hmax l (Task.id x)) as [Hx Hl].
  constructor; [lia |]. eapply Forall_impl; [exact Hl |]. cbn. intros; lia.
Qed.

Lemma sorted_lookup_lt (l : list Z) i j a b :
  StronglySorted Z.lt l → l !! i = Some a → l !! j = Some b → (i < j)%nat → a < b.
Proof.
  intros Hsorted. revert i j.
  induction Hsorted as [|c l _ IH Hc]; intros i j Hi Hj Hij; [done |].
  destruct j as [|j]; [lia |]. cbn in Hj. destruct i as [|i]; cbn in Hi.
  - injection Hi as ->. rewrite Forall_forall in Hc. apply Hc.
    by eapply list_elem_of_lookup_2.
  - apply (IH i j); [done | done | lia].
Qed.

(** What a sequence of Add calls with acceptable titles does: each call
    returns whether its save succeeded, and the list grows by the tasks
    of the saved calls, numbered upwards from the counter. *)
Lemma add_tasks_spec calls app :
  Forall (λ c, strip (call_title c) ≠ []) calls →
  ∃ added,
    result (add_tasks calls app)
    = Returns ((λ c, save_ok (call_env c)) <$> calls)
    ∧ tasks (self_after (add_tasks calls app)) = tasks app ++ added
    ∧ filename (self_after (add_tasks calls app)) = filename app
    ∧ next_id (self_after (add_tasks calls app))
      = next_id app + Z.of_nat (length added)
    ∧ length added
      = length (filter (λ c, save_ok (call_env c) = true) calls)
    ∧ Forall (λ x, next_id app ≤ Task.id x
                   ∧ Task.id x < next_id (self_after (add_tasks calls app))) added
    ∧ StronglySorted Z.lt (ids added).
Proof.
  intros Hcalls. revert app.
  induction Hcalls as [|c calls Hc _ IH]; intros app.
  - exists []. cbn. rewrite app_nil_r. split_and!; try done; [lia | constructor].
  - cbn [add_tasks]. destruct (save_ok (call_env c)) eqn:Hsave.
    + rewrite (bind_returns _ _ _ _ _ _
                 (add_task_saved _ _ (call_description c) app Hc Hsave)).
      set (x := new_task (call_env c) (call_title c) (call_description c) app).
      set (app' := mkApp (filename app) (tasks app ++ [x]) (next_id app + 1)).
      destruct (IH app') as (added & Hres & Htasks & Hfile & Hnext & Hlen & Hids & Hsorted).
      rewrite (bind_ret_returns _ _ _ _ Hres). cbn [result self_after trace].
      exists (x :: added). rewrite Htasks, Hfile, Hnext.
      rewrite filter_cons_True by done.
      subst app'. cbn [tasks filename next_id] in *.
      split_and!; try done.
      * by rewrite fmap_cons, Hsave.
      * by rewrite <- app_assoc.
      * cbn [length]. lia.
      * cbn [length]. by rewrite Hlen.
      * constructor.
        -- subst x. cbn. lia.
        -- eapply Forall_impl; [exact Hids |]. cbn. intros y. rewrite Hnext. lia.
      * unfold ids. rewrite fmap_cons. constructor; [done |].
        apply Forall_fmap. eapply Forall_impl; [exact Hids |].
        cbn. intros y. subst x. cbn. lia.
    + rewrite (bind_returns _ _ _ _ _ _
                 (add_task_save_failed _ _ (call_description c) app Hc Hsave)).
      destruct (IH app) as (added & Hres & Htasks & Hfile & Hnext & Hlen & Hids & Hsorted).
      rewrite (bind_ret_returns _ _ _ _ Hres). cbn [result self_after trace].
      exists added. rewrite filter_cons_False by (by rewrite Hsave).
      split_and!; try done.
      by rewrite fmap_cons, Hsave.
Qed.

(** C2: start from a store whose counter is above every id in it and make
    any sequence of Add calls whose titles are not empty once trimmed
    (each save may succeed or fail).  The calls all return, the list is
    the old one followed by the tasks added, and the ids of the tasks
    added are strictly increasing in the order of the calls, pairwise
    distinct and above every id that was in the store: every task added
    has an id no other task of the store has.  The counter is still above
    every id. *)
Theorem add_tasks_ids_unique_and_increasing calls app :
  counter_above app →
  Forall (λ c, strip (call_title c) ≠ []) calls →
  let o := add_tasks calls app in
  ∃ added,
    result o = Returns ((λ c, save_ok (call_env c)) <$> calls)
    ∧ tasks (self_after o) = tasks app ++ added
    ∧ length added = length (filter (λ c, save_ok (call_env c) = true) calls)
    ∧ StronglySorted Z.lt (ids added)
    ∧ NoDup (ids added)
    ∧ (∀ x y, x ∈ added → y ∈ tasks app → Task.id y < Task.id x)
    ∧ (∀ i j x y, tasks (self_after o) !! i = Some x →
                  tasks (self_after o) !! j = Some y →
                  (length (tasks app) ≤ j)%nat → i ≠ j →
                  Task.id x ≠ Task.id y)
    ∧ (unique_ids app → unique_ids (self_after o))
    ∧ counter_above (self_after o).
Proof.
  intros Habove Hcalls. cbn zeta.
  destruct (add_tasks_spec calls app Hcalls)
    as (added & Hres & Htasks & _ & Hnext & Hlen & Hids & Hsorted).
  exists added. rewrite Htasks.
  assert (Hfresh : ∀ x y, x ∈ added → y ∈ tasks app → Task.id y < Task.id x).
  { intros x y Hx Hy. unfold counter_above in Habove.
    rewrite Forall_forall in Habove, Hids.
    specialize (Habove y Hy). specialize (Hids x Hx). lia. }
  assert (Hnodup : NoDup (ids added)).
  { clear -Hsorted. induction Hsorted as [|a l _ IH Ha]; constructor; [|done].
    intros Hin. rewrite Forall_forall in Ha. specialize (Ha a Hin). lia. }
  assert (Hlt : ∀ i j x y, added !! i = Some x → added !! j = Some y →
                           (i < j)%nat → Task.id x < Task.id y).
  { clear -Hsorted. unfold ids in Hsorted. intros i j x y Hi Hj Hij.
    apply (sorted_lookup_lt (Task.id <$> added) i j); try done.
    - by rewrite list_lookup_fmap, Hi.
    - by rewrite list_lookup_fmap, Hj. }
  split_and!; try done.
  - intros i j x y Hi Hj Hj' Hij.
    rewrite lookup_app_r in Hj by done.
    assert (Hy : y ∈ added) by (by eapply list_elem_of_lookup_2).
    destruct (decide (i < length (tasks app))%nat) as [Hi'|Hi'].
    + rewrite lookup_app_l in Hi by done.
      assert (Hx : x ∈ tasks app) by (by eapply list_elem_of_lookup_2).
      specialize (Hfresh y x Hy Hx). lia.
    + rewrite lookup_app_r in Hi by lia.
      destruct (decide (i - length (tasks app) < j - length (tasks app))%nat).
      * pose proof (Hlt _ _ _ _ Hi Hj ltac:(done)). lia.
      * pose proof (Hlt _ _ _ _ Hj Hi ltac:(lia)). lia.
  - unfold unique_ids, ids. intros Huniq. rewrite Htasks, fmap_app.
    apply NoDup_app. split_and!; [done | | done].
    intros n (y & -> & Hy)%list_elem_of_fmap (x & Heq & Hx)%list_elem_of_fmap.
    specialize (Hfresh x y Hx Hy). lia.
  - unfold counter_above. rewrite Htasks, Hnext. apply Forall_app. split.
    + eapply Forall_impl; [exact Habove |]. cbn. intros; lia.
    + eapply Forall_impl; [exact Hids |]. cbn. intros y. rewrite Hnext. lia.
Qed.

Lemma add_tasks_ids_witness :
  let o := add_tasks sample_calls sample_app in
  ∃ added,
    result o = Returns ((λ c, save_ok (call_env c)) <$> sample_calls)
    ∧ tasks (self_after o) = tasks sample_app ++ added
    ∧ length added
      = length (filter (λ c, save_ok (call_env c) = true) sample_calls)
    ∧ StronglySorted Z.lt (ids added)
    ∧ NoDup (ids added)
    ∧ (∀ x y, x ∈ added → y ∈ tasks sample_app → Task.id y < Task.id x)
    ∧ (∀ i j x y, tasks (self_after o) !! i = Some x →
                  tasks (self_after o) !! j = Some y →
                  (length (tasks sample_app) ≤ j)%nat → i ≠ j →
                  Task.id x ≠ Task.id y)
    ∧ (unique_ids sample_app → unique_ids (self_after o))
    ∧ counter_above (self_after o).
Proof.
  apply (add_tasks_ids_unique_and_increasing sample_calls sample_app).
  - unfold counter_above, sample_app. cbn [tasks next_id].
    repeat apply Forall_cons_2; try apply Forall_nil_2; reflexivity.
  - unfold sample_calls.
    repeat apply Forall_cons_2; try apply Forall_nil_2;
      vm_compute; discriminate.
Defined.

(** The ids the three calls hand out: 3 and 4, the failed call using none. *)
Example add_tasks_sample_ids :
  ids (tasks (self_after (add_tasks sample_calls sample_app))) = [1; 2; 3; 4]
  ∧ next_id (self_after (add_tasks sample_calls sample_app)) = 5
  ∧ result (add_tasks sample_calls sample_app) = Returns [true; false; true].
Proof. by vm_compute. Qed.

(** ** The scenarios of the specification *)

(** Start empty; Add "Buy milk" gets id 1; Add "" is rejected; Complete 1,
    Uncomplete 1 and a confirmed Delete 1 leave an empty list, and the
    counter is not reused. *)
Example scenario_buy_milk :
  let s0 := init (lit "tasks.json") [] in
  let s1 := self_after (add_task env_ok (lit "Buy milk") [] s0) in
  let s2 := self_after (add_task env_ok [] [] s1) in
  let s3 := self_after (complete_task env_ok 1 s2) in
  let s4 := self_after (uncomplete_task env_ok 1 s3) in
  let s5 := self_after (delete_task env_ok 1 s4) in
  ids (tasks s1) = [1]
  ∧ result (get_task_stats s1) = Returns (mkStats 1 0 1)
  ∧ result (add_task env_ok [] [] s1) = Returns false
  ∧ s2 = s1
  ∧ result (get_task_stats s3) = Returns (mkStats 1 1 0)
  ∧ result (get_task_stats s4) = Returns (mkStats 1 0 1)
  ∧ tasks s4 = tasks s1
  ∧ tasks s5 = []
  ∧ next_id s5 = 2.
Proof. by vm_compute. Qed.

(** Add "A" and "B" get ids 1 and 2; after a confirmed Delete 1 the list
    is the task 2 alone, and Add "C" gets id 3: id 1 is not handed out
    again. *)
Example scenario_no_id_reuse :
  let s0 := init (lit "tasks.json") [] in
  let s1 := self_after (add_task env_ok (lit "A") [] s0) in
  let s2 := self_after (add_task env_ok (lit "B") [] s1) in
  let s3 := self_after (delete_task env_ok 1 s2) in
  let s4 := self_after (add_task env_ok (lit "C") [] s3) in
  ids (tasks s2) = [1; 2]
  ∧ ids (tasks s3) = [2]
  ∧ ids (tasks s4) = [2; 3].
Proof. by vm_compute. Qed.

(** * Further properties of the store *)

(** ** Trimming is idempotent *)

Lemma lstrip_fixed (s : str) : lstrip (lstrip s) = lstrip s.
Proof.
  induction s as [|c s IH]; [done |]. cbn.
  destruct (isspace c) eqn:Hc; [done |]. cbn. by rewrite Hc.
Qed.

Lemma lstrip_snoc (s : str) (c : N) :
  lstrip (s ++ [c])
  = if decide (lstrip s = []) then (if isspace c then [] else [c])
    else lstrip s ++ [c].
Proof.
  induction s as [|d s IH]; cbn.
  - by destruct (isspace c).
  - destruct (isspace d) eqn:Hd; [done |]. by rewrite decide_False.
Qed.

Lemma rstrip_cons (c : N) (s : str) :
  rstrip (c :: s)
  = if decide (rstrip s = []) then (if isspace c then [] else [c])
    else c :: rstrip s.
Proof.
  unfold rstrip. cbn [rev]. rewrite lstrip_snoc.
  destruct (decide (lstrip (rev s) = [])) as [Hnil|Hsome].
  - rewrite Hnil. cbn. rewrite decide_True by done. by destruct (isspace c).
  - rewrite decide_False.
    + by rewrite rev_app_distr.
    + intros Hrev. apply Hsome. apply (f_equal (@rev N)) in Hrev.
      by rewrite rev_involutive in Hrev.
Qed.

Lemma rstrip_fixed (s : str) : rstrip (rstrip s) = rstrip s.
Proof. unfold rstrip. by rewrite rev_involutive, lstrip_fixed. Qed.

(** Trimming on the right keeps a string that starts with a letter
    starting with it. *)
Lemma lstrip_rstrip (s : str) : lstrip s = s → lstrip (rstrip s) = rstrip s.
Proof.
  destruct s as [|c s]; [done |]. cbn [lstrip].
  destruct (isspace c) eqn:Hc.
  - intros Hs. exfalso.
    assert (Hlen : ∀ t, (length (lstrip t) ≤ length t)%nat).
    { clear. induction t as [|d t IH]; cbn; [lia |].
      destruct (isspace d); cbn; lia. }
    specialize (Hlen s). rewrite Hs in Hlen. cbn in Hlen. lia.
  - intros _. rewrite rstrip_cons.
    destruct (decide (rstrip s = [])); rewrite ?Hc; cbn; by rewrite Hc.
Qed.

Lemma strip_fixed (s : str) : strip (strip s) = strip s.
Proof.
  unfold strip.
  rewrite (lstrip_rstrip (lstrip s)) by apply lstrip_fixed.
  apply rstrip_fixed.
Qed.

(** ** Starting the counter *)

Lemma foldl_max_spec (l : list Task.t) (m : Z) :
  let top := foldl (λ m y, Z.max m (Task.id y)) m l in
  m ≤ top
  ∧ Forall (λ y, Task.id y ≤ top) l
  ∧ (top = m ∨ ∃ y, y ∈ l ∧ top = Task.id y).
Proof.
  revert m. induction l as [|x l IH]; intros m; cbn.
  - split_and!; [lia | done | by left].
  - destruct (IH (Z.max m (Task.id x))) as (Hm & Hl & Htop). cbn in Hm, Hl, Htop.
    split_and!; [lia | constructor; [lia | done] |].
    destruct Htop as [Htop | (y & Hy & Htop)].
    + destruct (Z.max_spec m (Task.id x)) as [[_ Hmax]|[_ Hmax]].
      * right. exists x. split; [left | lia].
      * left. lia.
    + right. exists y. split; [by right | done].
Qed.

(** X1: [__init__] keeps the loaded list and derives the counter from it:
    1 for the empty list, otherwise one more than the greatest id, so that
    the counter is above every id and the id just below it is in use
    (also when the loaded ids are zero or negative). *)
Theorem init_counter_is_max_plus_one file loaded :
  tasks (init file loaded) = loaded
  ∧ filename (init file loaded) = file
  ∧ (loaded = [] → next_id (init file loaded) = 1)
  ∧ counter_above (init file loaded)
  ∧ (loaded ≠ [] → has_id (next_id (init file loaded) - 1) (init file loaded)).
Proof.
  split_and!; try done.
  - by intros ->.
  - apply init_counter_above.
  - destruct loaded as [|x l]; [done |]. intros _.
    unfold has_id, ids, init, _get_next_id. cbn [tasks next_id].
    destruct (foldl_max_spec l (Task.id x)) as (_ & _ & Htop). cbn in Htop.
    replace (foldl (λ m y, Z.max m (Task.id y)) (Task.id x) l + 1 - 1)
      with (foldl (λ m y, Z.max m (Task.id y)) (Task.id x) l) by lia.
    destruct Htop as [-> | (y & Hy & ->)].
    + rewrite fmap_cons. left.
    + rewrite fmap_cons. right. by apply list_elem_of_fmap_2.
Qed.

(** ** Looking up an id that is not there *)

(** X5: Update, Complete, Uncomplete and Delete on an id no task has all
    return [False], leave the store as it is, print the not-found line
    and do nothing else: no prompt, no write of the file. *)
Theorem missing_id_is_reported e op task_id app :
  targets op = Some task_id → ¬ has_id task_id app →
  let o := run e op app in
  result o = Returns false
  ∧ self_after o = app
  ∧ trace o = [Print (NotFound task_id)].
Proof.
  intros Htarget Hmissing%find_missing. cbn zeta.
  destruct op; cbn in Htarget; simplify_eq; cbn [run].
  - by rewrite update_task_not_found.
  - by rewrite complete_task_not_found.
  - by rewrite uncomplete_task_not_found.
  - by rewrite delete_task_not_found.
Qed.

Lemma missing_id_witness :
  let o := run env_ok (Update 9 (Some (lit "Z")) None) sample_app in
  result o = Returns false
  ∧ self_after o = sample_app
  ∧ trace o = [Print (NotFound 9)].
Proof.
  apply (missing_id_is_reported env_ok (Update 9 (Some (lit "Z")) None) 9 sample_app).
  - reflexivity.
  - unfold has_id. cbn. intros Hin.
    repeat (apply elem_of_cons in Hin as [Hin|Hin]; [done |]).
    by apply elem_of_nil in Hin.
Defined.

(** ** What each operation changes *)

Lemma alter_as_insert (f : Task.t → Task.t) (l : list Task.t) i x :
  l !! i = Some x → alter f i l = <[i := f x]> l.
Proof.
  intros Hi. rewrite list_insert_alter. apply list_alter_ext; [|done].
  intros y Hy. congruence.
Qed.

Lemma find_lookup task_id (l : list Task.t) i x :
  find_in task_id l = Some (i, x) → l !! i = Some x ∧ Task.id x = task_id.
Proof. by intros (? & ? & _)%list_find_Some. Qed.

(** X6: [update_task] with a title that is empty once trimmed is refused
    before anything is assigned: the description given with it is not
    stored either, the store is as before, and the file is not written. *)
Theorem update_task_blank_title_changes_nothing
    e task_id new_title description app :
  has_id task_id app → strip new_title = [] →
  let o := update_task e task_id (Some new_title) description app in
  result o = Returns false
  ∧ self_after o = app
  ∧ trace o = [Print TitleEmpty]
  ∧ no_save (trace o).
Proof.
  intros (i & x & Hfind & _)%find_has_id Hblank. cbn zeta.
  rewrite (update_task_rejected _ _ _ _ _ _ _ Hfind Hblank). cbn.
  split_and!; auto with store.
Qed.

Lemma update_task_blank_title_witness :
  let o := update_task env_ok 2 (Some (lit "  ")) (Some (lit "kept out")) sample_app in
  result o = Returns false
  ∧ self_after o = sample_app
  ∧ trace o = [Print TitleEmpty]
  ∧ no_save (trace o).
Proof.
  apply (update_task_blank_title_changes_nothing
           env_ok 2 (lit "  ") (Some (lit "kept out")) sample_app).
  - unfold has_id. cbn. right. left.
  - reflexivity.
Defined.

(** X7: [update_task] with an acceptable title (or none) rewrites one
    task, the first of the list with the given id: its title and
    description become the trimmed values given, a field not given keeps
    its value, and its id, completion flag and stamps are untouched; every
    other position of the list, and the counter, are unchanged.  The call
    returns whether the save succeeded, and the change stays in memory
    when it did not. *)
Theorem update_task_changes_only_given_fields
    e task_id title description app :
  has_id task_id app →
  (∀ new_title, title = Some new_title → strip new_title ≠ []) →
  let o := update_task e task_id title description app in
  ∃ i x,
    find_in task_id (tasks app) = Some (i, x)
    ∧ result o = Returns (save_ok e)
    ∧ tasks (self_after o)
      = <[i := Task.mk (Task.id x)
                       (default (Task.title x) (strip <$> title))
                       (default (Task.description x) (strip <$> description))
                       (Task.completed x) (Task.created_at x)
                       (Task.completed_at x)]> (tasks app)
    ∧ next_id (self_after o) = next_id app.
Proof.
  intros (i & x & Hfind & Hi & _)%find_has_id Htitle. cbn zeta.
  exists i, x. rewrite (update_task_applied _ _ _ _ _ _ _ Hfind Htitle). cbn.
  split_and!; try done.
  rewrite (alter_as_insert _ _ _ _ Hi). f_equal.
  by destruct x, title, description.
Qed.

Lemma update_task_changes_witness :
  let o := update_task env_fail 2 None (Some (lit " later ")) sample_app in
  ∃ i x,
    find_in 2 (tasks sample_app) = Some (i, x)
    ∧ result o = Returns (save_ok env_fail)
    ∧ tasks (self_after o)
      = <[i := Task.mk (Task.id x)
                       (default (Task.title x) (strip <$> None))
                       (default (Task.description x) (strip <$> Some (lit " later ")))
                       (Task.completed x) (Task.created_at x)
                       (Task.completed_at x)]> (tasks sample_app)
    ∧ next_id (self_after o) = next_id sample_app.
Proof.
  apply (update_task_changes_only_given_fields
           env_fail 2 None (Some (lit " later ")) sample_app).
  - unfold has_id. cbn. right. left.
  - intros new_title Hnone. discriminate Hnone.
Defined.

(** X9: [complete_task] on an id whose first task is pending sets that
    task's flag and stamps it with the current time, and changes nothing
    else: the other fields of the task, the other positions of the list
    (also later tasks with the same id) and the counter are as before.
    It returns whether the save succeeded; when the save failed the task
    is completed in memory all the same. *)
Theorem complete_task_marks_first_match e task_id app i x :
  find_in task_id (tasks app) = Some (i, x) → Task.completed x = false →
  let o := complete_task e task_id app in
  result o = Returns (save_ok e)
  ∧ tasks (self_after o)
    = <[i := Task.mk (Task.id x) (Task.title x) (Task.description x) true
                     (Task.created_at x) (Some (now e))]> (tasks app)
  ∧ next_id (self_after o) = next_id app.
Proof.
  intros Hfind Hpending. cbn zeta.
  rewrite (complete_task_pending _ _ _ _ _ Hfind Hpending). cbn.
  split_and!; try done.
  apply find_lookup in Hfind as [Hi _]. by rewrite (alter_as_insert _ _ _ _ Hi).
Qed.

Lemma complete_task_marks_witness :
  let o := complete_task env_fail 2 sample_app in
  result o = Returns (save_ok env_fail)
  ∧ tasks (self_after o)
    = <[1%nat := Task.mk (Task.id (sample_task 2 "B")) (Task.title (sample_task 2 "B"))
                     (Task.description (sample_task 2 "B")) true
                     (Task.created_at (sample_task 2 "B")) (Some (now env_fail))]>
        (tasks sample_app)
  ∧ next_id (self_after o) = next_id sample_app.
Proof.
  apply (complete_task_marks_first_match env_fail 2 sample_app 1%nat (sample_task 2 "B")).
  - reflexivity.
  - reflexivity.
Defined.

(** X10: a second [uncomplete_task] right after a first one changes
    nothing: it finds the task pending, returns [True], prints that it is
    already pending and does not write the file, whether or not the save
    of the first call succeeded. *)
Theorem uncomplete_task_idempotent e1 e2 task_id app :
  has_id task_id app →
  let once := uncomplete_task e1 task_id app in
  let twice := uncomplete_task e2 task_id (self_after once) in
  self_after twice = self_after once
  ∧ result twice = Returns true
  ∧ no_save (trace twice)
  ∧ (∃ title, trace twice = [Print (AlreadyPending title)])
  ∧ (∃ i x, find_in task_id (tasks (self_after twice)) = Some (i, x)
            ∧ Task.completed x = false).
Proof.
  intros (i & x & Hfind & _ & _)%find_has_id. cbn zeta.
  destruct (Task.completed x) eqn:Hdone.
  - rewrite (uncomplete_task_completed e1 _ _ _ _ Hfind Hdone). cbn [self_after].
    pose proof (find_alter task_id mark_pending _ _ _ (λ y, eq_refl) Hfind) as Hfind'.
    rewrite (uncomplete_task_already e2 task_id
               (mkApp _ (alter _ i (tasks app)) _) i _ Hfind' eq_refl).
    cbn. split_and!; eauto with store.
  - rewrite (uncomplete_task_already e1 _ _ _ _ Hfind Hdone). cbn [self_after].
    rewrite (uncomplete_task_already e2 _ _ _ _ Hfind Hdone). cbn.
    split_and!; eauto with store.
Qed.

Lemma uncomplete_task_idempotent_witness :
  let once := uncomplete_task env_fail 2 (self_after (complete_task env_ok 2 sample_app)) in
  let twice := uncomplete_task env_ok 2 (self_after once) in
  self_after twice = self_after once
  ∧ result twice = Returns true
  ∧ no_save (trace twice)
  ∧ (∃ title, trace twice = [Print (AlreadyPending title)])
  ∧ (∃ i x, find_in 2 (tasks (self_after twice)) = Some (i, x)
            ∧ Task.completed x = false).
Proof.
  apply (uncomplete_task_idempotent env_fail env_ok 2
           (self_after (complete_task env_ok 2 sample_app))).
  unfold has_id. vm_compute. right. left.
Defined.



(** X13: on a store whose counter is above every id, a successful
    [add_task] returns [True], puts the new task at the end of the list
    with the old value of the counter as its id, the trimmed title and
    description, no completion and the current time as creation stamp,
    and moves the counter up by one; looking that id up afterwards finds
    the new task, at the last position. *)
Theorem add_task_then_find e title description app :
  counter_above app → strip title ≠ [] → save_ok e = true →
  let o := add_task e title description app in
  let added := Task.mk (next_id app) (strip title) (strip description) false
                       (now e) None in
  result o = Returns true
  ∧ tasks (self_after o) = tasks app ++ [added]
  ∧ next_id (self_after o) = next_id app + 1
  ∧ result (find_task_by_id (next_id app) (self_after o))
    = Returns (Some (length (tasks app), added)).
Proof.
  intros Habove Htitle Hsave. cbn zeta.
  rewrite (add_task_saved _ _ _ _ Htitle Hsave). cbn.
  split_and!; try done. f_equal.
  rewrite list_find_app_r.
  - cbn. by rewrite decide_True.
  - apply list_find_None. unfold counter_above in Habove.
    eapply Forall_impl; [exact Habove |]. cbn. intros; lia.
Qed.

Lemma add_task_then_find_witness :
  let o := add_task env_ok (lit " C ") (lit "d") sample_app in
  let added := Task.mk (next_id sample_app) (strip (lit " C ")) (strip (lit "d")) false
                       (now env_ok) None in
  result o = Returns true
  ∧ tasks (self_after o) = tasks sample_app ++ [added]
  ∧ next_id (self_after o) = next_id sample_app + 1
  ∧ result (find_task_by_id (next_id sample_app) (self_after o))
    = Returns (Some (length (tasks sample_app), added)).
Proof.
  apply (add_task_then_find env_ok (lit " C ") (lit "d") sample_app).
  - unfold counter_above, sample_app. cbn [tasks next_id].
    repeat apply Forall_cons_2; try apply Forall_nil_2; reflexivity.
  - vm_compute. discriminate.
  - reflexivity.
Defined.

(** ** The shape of every call *)

(** Splits a statement about [run e op app] into the branches of the
    operation, each rewritten to its outcome. *)
Ltac branches e app :=
  let i := fresh "i" in
  let x := fresh "x" in
  let Hfind := fresh "Hfind" in
  let Hblank := fresh "Hblank" in
  let Htitle := fresh "Htitle" in
  let Hsave := fresh "Hsave" in
  let Hdone := fresh "Hdone" in
  let Hans := fresh "Hans" in
  let Hyes := fresh "Hyes" in
  lazymatch goal with
  | |- context [add_task e ?t ?d app] =>
      destruct (decide (strip t = [])) as [Hblank|Htitle];
      [ rewrite (add_task_rejected e t d app Hblank)
      | destruct (save_ok e) eqn:Hsave;
        [ rewrite (add_task_saved e t d app Htitle Hsave)
        | rewrite (add_task_save_failed e t d app Htitle Hsave) ] ]
  | |- context [update_task e ?n ?t ?d app] =>
      destruct (find_in n (tasks app)) as [[i x]|] eqn:Hfind;
      [ destruct t as [t|];
        [ destruct (decide (strip t = [])) as [Hblank|Htitle];
          [ rewrite (update_task_rejected e n t d app i x Hfind Hblank)
          | assert (∀ new_title, Some t = Some new_title → strip new_title ≠ [])
              as Htitle' by (by intros ? [= <-]);
            rewrite (update_task_applied e n (Some t) d app i x Hfind Htitle') ]
        | assert (∀ new_title, @None str = Some new_title → strip new_title ≠ [])
            as Htitle' by done;
          rewrite (update_task_applied e n None d app i x Hfind Htitle') ]
      | rewrite (update_task_not_found e n t d app Hfind) ]
  | |- context [complete_task e ?n app] =>
      destruct (find_in n (tasks app)) as [[i x]|] eqn:Hfind;
      [ destruct (Task.completed x) eqn:Hdone;
        [ rewrite (complete_task_already e n app i x Hfind Hdone)
        | rewrite (complete_task_pending e n app i x Hfind Hdone) ]
      | rewrite (complete_task_not_found e n app Hfind) ]
  | |- context [uncomplete_task e ?n app] =>
      destruct (find_in n (tasks app)) as [[i x]|] eqn:Hfind;
      [ destruct (Task.completed x) eqn:Hdone;
        [ rewrite (uncomplete_task_completed e n app i x Hfind Hdone)
        | rewrite (uncomplete_task_already e n app i x Hfind Hdone) ]
      | rewrite (uncomplete_task_not_found e n app Hfind) ]
  | |- context [delete_task e ?n app] =>
      destruct (find_in n (tasks app)) as [[i x]|] eqn:Hfind;
      [ destruct (answer e) as [line|] eqn:Hans;
        [ destruct (decide (lower line = lit "y")) as [Hyes|Hyes];
          [ rewrite (delete_task_confirmed e n app i x line Hfind Hans Hyes)
          | rewrite (delete_task_cancelled e n app i x line Hfind Hans Hyes) ]
        | rewrite (delete_task_no_input e n app i x Hfind Hans) ]
      | rewrite (delete_task_not_found e n app Hfind) ]
  end.

Lemma run_change e op app : change app (self_after (run e op app)).
Proof.
  destruct op; cbn [run]; branches e app; cbn [self_after];
    try apply Unchanged; try (by apply Appended); try apply Removed;
    apply Rewritten; by constructor.
Qed.

Lemma assignment_keeps_id f x : assignment f → Task.id (f x) = Task.id x.
Proof. intros [title description _| |]; [by destruct title, description |done..]. Qed.

Lemma alter_keeps_ids f i l :
  assignment f → ids (alter f i l) = ids l.
Proof.
  intros Hf. unfold ids.
  rewrite (list_fmap_alter Task.id f id).
  - by rewrite list_alter_id.
  - apply Forall_forall. intros x _. by apply assignment_keeps_id.
Qed.

(** X14: Update, Complete and Uncomplete work in place: whatever branch
    they take, the list has the same ids in the same order (so the same
    length) and the counter is the same afterwards. *)
Theorem in_place_operations_keep_ids e task_id title description app :
  (ids (tasks (self_after (update_task e task_id title description app)))
   = ids (tasks app)
   ∧ next_id (self_after (update_task e task_id title description app))
     = next_id app)
  ∧ (ids (tasks (self_after (complete_task e task_id app))) = ids (tasks app)
     ∧ next_id (self_after (complete_task e task_id app)) = next_id app)
  ∧ (ids (tasks (self_after (uncomplete_task e task_id app))) = ids (tasks app)
     ∧ next_id (self_after (uncomplete_task e task_id app)) = next_id app).
Proof.
  split_and!; branches e app; cbn [self_after tasks next_id]; try done;
    apply alter_keeps_ids; by constructor.
Qed.

(** ** Invariants of the data model *)

Lemma change_keeps_ids app app' :
  change app app' → unique_ids app → counter_above app →
  unique_ids app' ∧ counter_above app' ∧ next_id app ≤ next_id app'.
Proof.
  unfold unique_ids, counter_above.
  intros [|e title description _|i f Hf|task_id] Huniq Habove; cbn.
  - split_and!; [done | done | lia].
  - split_and!; [| |lia].
    + unfold ids. rewrite fmap_app. apply NoDup_app. split_and!; [done | |].
      * intros n (y & -> & Hy)%list_elem_of_fmap Hin. cbn in Hin.
        apply list_elem_of_singleton in Hin.
        rewrite Forall_forall in Habove. specialize (Habove y Hy). lia.
      * apply NoDup_singleton.
    + apply Forall_app. split.
      * eapply Forall_impl; [exact Habove |]. cbn. intros; lia.
      * apply Forall_singleton. cbn. lia.
  - split_and!; [by rewrite alter_keeps_ids | | lia].
    apply Forall_alter; [done |]. intros x _ Hx. by rewrite assignment_keeps_id.
  - split_and!; [| | lia].
    + apply (sublist_NoDup _ (ids (tasks app))); [done |].
      unfold ids. apply fmap_sublist, sublist_filter.
    + rewrite Forall_forall in Habove. apply Forall_forall.
      intros y [_ Hy]%list_elem_of_filter. by apply Habove.
Qed.

(** X2: each of Add, Update, Complete, Uncomplete and Delete, on a store
    whose ids are unique and below the counter, leaves a store whose ids
    are unique and below the counter, and never moves the counter down,
    whatever the environment does. *)
Theorem operations_keep_ids_unique e op app :
  unique_ids app → counter_above app →
  let app' := self_after (run e op app) in
  unique_ids app' ∧ counter_above app' ∧ next_id app ≤ next_id app'.
Proof.
  intros Huniq Habove. cbn zeta.
  by apply change_keeps_ids; [apply run_change | |].
Qed.

Lemma assignment_keeps_title_trimmed f x :
  assignment f → trimmed_title x → trimmed_title (f x).
Proof.
  intros [title description Htitle| |] Hx; [|done..].
  unfold trimmed_title in *.
  destruct title as [new_title|], description; cbn; try done.
  all: split; [by apply Htitle | apply strip_fixed].
Qed.

Lemma change_keeps_titles app app' :
  change app app' → titles_ok app → titles_ok app'.
Proof.
  unfold titles_ok. intros [|e title description Htitle|i f Hf|task_id] Hok; cbn.
  - done.
  - apply Forall_app. split; [done |]. apply Forall_singleton.
    split; cbn; [done | apply strip_fixed].
  - apply Forall_alter; [done |]. intros x _. by apply assignment_keeps_title_trimmed.
  - rewrite Forall_forall in Hok. apply Forall_forall.
    intros y [_ Hy]%list_elem_of_filter. by apply Hok.
Qed.

(** X3: each operation keeps every title non-empty and trimmed: if every
    task of the store has a title that is not empty and equals its own
    [strip], so has every task afterwards (Add and Update store the
    trimmed title, and refuse one that trims to nothing). *)
Theorem operations_keep_titles_trimmed e op app :
  titles_ok app → titles_ok (self_after (run e op app)).
Proof. apply change_keeps_titles, run_change. Qed.

Lemma change_keeps_stamps app app' :
  change app app' → store_consistent app → store_consistent app'.
Proof.
  unfold store_consistent. intros [|e title description _|i f Hf|task_id] Hok; cbn.
  - done.
  - apply Forall_app. split; [done |]. by apply Forall_singleton.
  - apply Forall_alter; [done |]. intros x _ Hx.
    destruct Hf as [t d _| |]; [by destruct t, d | done..].
  - rewrite Forall_forall in Hok. apply Forall_forall.
    intros y [_ Hy]%list_elem_of_filter. by apply Hok.
Qed.

(** X4: the invariants of the data model hold along every run: from a
    store with unique ids below the counter, completion stamps that agree
    with the flags and trimmed non-empty titles, any sequence of calls of
    the five operations, in any environments (saves failing, deletions
    declined or interrupted), ends in such a store. *)
Theorem well_formed_along_runs calls app :
  well_formed app → well_formed (after_calls calls app).
Proof.
  revert app. induction calls as [|[e op] calls IH]; intros app Hwf; [done |].
  cbn [after_calls]. apply IH.
  destruct Hwf as (Huniq & Habove & Hstamps & Htitles).
  pose proof (run_change e op app) as Hchange.
  destruct (change_keeps_ids _ _ Hchange Huniq Habove) as (? & ? & _).
  split_and!; [done | done | by eapply change_keeps_stamps
              | by eapply change_keeps_titles].
Qed.

Lemma sample_app_unique : unique_ids sample_app.
Proof.
  unfold unique_ids. cbn. apply NoDup_cons. split; [|apply NoDup_singleton].
  by intros ?%list_elem_of_singleton.
Qed.

Lemma sample_app_counter_above : counter_above sample_app.
Proof.
  unfold counter_above, sample_app. cbn [tasks next_id].
  repeat apply Forall_cons_2; try apply Forall_nil_2; reflexivity.
Qed.

Lemma sample_app_titles_ok : titles_ok sample_app.
Proof.
  unfold titles_ok, sample_app. cbn [tasks].
  repeat apply Forall_cons_2; try apply Forall_nil_2;
    (split; [vm_compute; discriminate | reflexivity]).
Qed.

Lemma operations_keep_ids_unique_witness :
  let app' := self_after (run env_ok (Add (lit "C") []) sample_app) in
  unique_ids app' ∧ counter_above app' ∧ next_id sample_app ≤ next_id app'.
Proof.
  apply (operations_keep_ids_unique env_ok (Add (lit "C") []) sample_app).
  - exact sample_app_unique.
  - exact sample_app_counter_above.
Defined.

Lemma operations_keep_titles_trimmed_witness :
  titles_ok (self_after (run env_ok (Update 1 (Some (lit " A2 ")) None) sample_app)).
Proof.
  apply (operations_keep_titles_trimmed env_ok (Update 1 (Some (lit " A2 ")) None)
           sample_app).
  exact sample_app_titles_ok.
Defined.

Lemma well_formed_along_runs_witness :
  well_formed
    (after_calls [ (env_ok, Add (lit "Buy milk") []);
                   (env_fail, Add (lit "Lost") []);
                   (env_ok, Complete 1);
                   (env_no, Delete 1);
                   (env_ok, Update 1 (Some (lit " Buy oat milk ")) None);
                   (env_ok, Delete 1);
                   (env_ok, Add (lit "Next") []) ]
                 (init (lit "tasks.json") [])).
Proof.
  apply (well_formed_along_runs _ (init (lit "tasks.json") [])).
  split_and!.
  - apply NoDup_nil_2.
  - apply Forall_nil_2.
  - apply Forall_nil_2.
  - apply Forall_nil_2.
Defined.

(** ** Memory and file *)

Ltac in_trace Hin :=
  repeat (apply elem_of_cons in Hin as [Hin|Hin]; [simplify_eq |]);
  try (by apply elem_of_nil in Hin).

(** X11: what an operation writes is what it leaves in memory.  Every
    write a call attempts goes to the file of the store; if it succeeds,
    the list written is the list of the store after the call and the call
    returns [True]; if it fails, the call returns [False]. *)
Theorem written_list_is_final_list e op app file data ok :
  Dump file data ok ∈ trace (run e op app) →
  file = filename app
  ∧ ok = save_ok e
  ∧ result (run e op app) = Returns ok
  ∧ (ok = true → data = tasks (self_after (run e op app))).
Proof.
  destruct op; cbn [run]; branches e app; cbn [trace result self_after tasks];
    intros Hin; in_trace Hin; try (destruct (save_ok e); in_trace Hin);
    by rewrite ?Hsave.
Qed.

Lemma written_list_witness :
  filename sample_app = filename sample_app
  ∧ true = save_ok env_ok
  ∧ result (run env_ok (Complete 1) sample_app) = Returns true
  ∧ (true = true →
     alter (mark_completed (now env_ok)) 0%nat (tasks sample_app)
     = tasks (self_after (run env_ok (Complete 1) sample_app))).
Proof.
  apply (written_list_is_final_list env_ok (Complete 1) sample_app
           (filename sample_app)
           (alter (mark_completed (now env_ok)) 0%nat (tasks sample_app)) true).
  vm_compute. left.
Defined.

(** X12: no operation changes the store without trying to save it: a
    call whose trace holds no write of the file leaves the store exactly
    as it was. *)
Theorem no_change_without_save e op app :
  no_save (trace (run e op app)) → self_after (run e op app) = app.
Proof.
  unfold no_save.
  destruct op; cbn [run]; branches e app; cbn [trace self_after];
    intros Hno; try done;
    repeat (apply Forall_cons in Hno as [Hev Hno]; cbn in Hev;
            first [discriminate Hev | clear Hev]).
Qed.

Lemma no_change_without_save_witness :
  self_after (run env_no (Delete 1) sample_app) = sample_app.
Proof.
  apply (no_change_without_save env_no (Delete 1) sample_app).
  vm_compute. repeat constructor.
Defined.

(** ** Statistics, again *)

Lemma completed_plus_pending (l : list Task.t) :
  (length (filter (λ x, Task.completed x = true) l) + count_pending l)%nat
  = length l.
Proof.
  unfold count_pending. induction l as [|x l IH]; [done |].
  rewrite !filter_cons. destruct (Task.completed x) eqn:Hx.
  - rewrite decide_True, decide_False by done. cbn. lia.
  - rewrite decide_False, decide_True by done. cbn. lia.
Qed.

Lemma get_task_stats_run app :
  get_task_stats app
  = mkOutcome
      (Returns (mkStats (Z.of_nat (length (tasks app)))
                        (Z.of_nat (length (filter (λ x, Task.completed x = true)
                                                  (tasks app))))
                        (Z.of_nat (count_pending (tasks app)))))
      app [].
Proof.
  unfold get_task_stats, bind, get_self, ret. cbn.
  rewrite sum_of_ones. do 3 f_equal.
  pose proof (completed_plus_pending (tasks app)). lia.
Qed.

(** X15: the pending count of [get_task_stats] is the number of tasks
    whose [completed] is false, and the three counts are natural numbers
    with completed and pending at most the total. *)
Theorem get_task_stats_pending app :
  ∃ st, result (get_task_stats app) = Returns st
        ∧ pending st = Z.of_nat (count_pending (tasks app))
        ∧ 0 ≤ completed st ≤ total st
        ∧ 0 ≤ pending st ≤ total st.
Proof.
  rewrite get_task_stats_run. eexists. split; [done |]. cbn.
  pose proof (completed_plus_pending (tasks app)). lia.
Qed.

Lemma count_alter (P : Task.t → Prop) `{∀ x, Decision (P x)}
    (f : Task.t → Task.t) (l : list Task.t) i x :
  l !! i = Some x → ¬ P x → P (f x) →
  length (filter P (alter f i l)) = S (length (filter P l)).
Proof.
  revert i. induction l as [|y l IH]; intros i Hi Hx Hfx; [done |].
  destruct i as [|i]; cbn in Hi.
  - injection Hi as ->. cbn [alter list_alter].
    by rewrite filter_cons_True, filter_cons_False.
  - cbn [alter list_alter]. rewrite !filter_cons.
    destruct (decide (P y)); cbn; by rewrite (IH i).
Qed.

Lemma count_alter_out (P : Task.t → Prop) `{∀ x, Decision (P x)}
    (f : Task.t → Task.t) (l : list Task.t) i x :
  l !! i = Some x → P x → ¬ P (f x) →
  length (filter P l) = S (length (filter P (alter f i l))).
Proof.
  revert i. induction l as [|y l IH]; intros i Hi Hx Hfx; [done |].
  destruct i as [|i]; cbn in Hi.
  - injection Hi as ->. cbn [alter list_alter].
    by rewrite filter_cons_True, filter_cons_False.
  - cbn [alter list_alter]. rewrite !filter_cons.
    destruct (decide (P y)); cbn; by rewrite (IH i).
Qed.

(** X16: the statistics follow Complete: completing a task that is
    pending (the first one with the given id) moves one unit from the
    pending count to the completed count and keeps the total, whether or
    not the save succeeds. *)
Theorem complete_task_moves_one_count e task_id app i x st :
  find_in task_id (tasks app) = Some (i, x) → Task.completed x = false →
  result (get_task_stats app) = Returns st →
  result (get_task_stats (self_after (complete_task e task_id app)))
  = Returns (mkStats (total st) (completed st + 1) (pending st - 1)).
Proof.
  intros Hfind Hpending. rewrite !get_task_stats_run. cbn [result].
  intros [= <-]. cbn [total completed pending].
  rewrite (complete_task_pending _ _ _ _ _ Hfind Hpending). cbn [self_after tasks].
  apply find_lookup in Hfind as [Hi _].
  rewrite length_alter.
  rewrite (count_alter (λ y, Task.completed y = true) _ _ _ _ Hi)
    by (done || by rewrite Hpending).
  unfold count_pending.
  rewrite (count_alter_out (λ y, Task.completed y = false) (mark_completed (now e))
             (tasks app) i x Hi) by done.
  do 2 f_equal; lia.
Qed.

Lemma complete_task_moves_one_count_witness :
  result (get_task_stats (self_after (complete_task env_fail 2 sample_app)))
  = Returns (mkStats (total (mkStats 2 0 2)) (completed (mkStats 2 0 2) + 1)
                     (pending (mkStats 2 0 2) - 1)).
Proof.
  apply (complete_task_moves_one_count env_fail 2 sample_app 1%nat
           (sample_task 2 "B") (mkStats 2 0 2)); reflexivity.
Defined.

(** ** Restarting *)

(** X17: the counter is not stored, so ids can come back after a restart.
    While the program runs, the counter stays above the id of a deleted
    task; but when the task with the greatest id (at least 1) has been
    deleted and the list is loaded again, [__init__] starts the counter at
    or below that id, so an id already handed out is handed out again. *)
Theorem restart_forgets_deleted_ids e file app x :
  counter_above app → x ∈ tasks app →
  Forall (λ y, Task.id y ≤ Task.id x) (tasks app) → 1 ≤ Task.id x →
  confirms e →
  let app' := self_after (delete_task e (Task.id x) app) in
  Task.id x < next_id app'
  ∧ next_id (init file (tasks app')) ≤ Task.id x.
Proof.
  intros Habove Hx Hmax Hpos (line & Hans & Hyes). cbn zeta.
  assert (Hhas : has_id (Task.id x) app).
  { unfold has_id, ids. by apply list_elem_of_fmap_2. }
  destruct (find_has_id _ _ Hhas) as (i & y & Hfind & _ & _).
  rewrite (delete_task_confirmed _ _ _ _ _ _ Hfind Hans Hyes).
  cbn [self_after tasks next_id]. split.
  - unfold counter_above in Habove. rewrite Forall_forall in Habove.
    by apply Habove.
  - unfold init, _get_next_id. cbn [next_id].
    destruct (filter _ (tasks app)) as [|z l] eqn:Hleft; [done |].
    assert (Hbelow : Forall (λ y, Task.id y < Task.id x) (z :: l)).
    { rewrite <- Hleft. rewrite Forall_forall in Hmax. apply Forall_forall.
      intros w [Hne Hw]%list_elem_of_filter. specialize (Hmax w Hw). lia. }
    apply Forall_cons in Hbelow as [Hz Hl].
    destruct (foldl_max_spec l (Task.id z)) as (_ & _ & [Htop | (w & Hw & Htop)]);
      cbn in Htop; rewrite Htop; [lia |].
    rewrite Forall_forall in Hl. specialize (Hl w Hw). lia.
Qed.

Lemma restart_forgets_deleted_ids_witness :
  let app' := self_after (delete_task env_ok (Task.id (sample_task 2 "B")) sample_app) in
  Task.id (sample_task 2 "B") < next_id app'
  ∧ next_id (init (lit "tasks.json") (tasks app')) ≤ Task.id (sample_task 2 "B").
Proof.
  apply (restart_forgets_deleted_ids env_ok (lit "tasks.json") sample_app
           (sample_task 2 "B")).
  - exact sample_app_counter_above.
  - unfold sample_app. cbn [tasks]. right. left.
  - unfold sample_app. cbn [tasks].
    repeat apply Forall_cons_2; try apply Forall_nil_2; by vm_compute.
  - by vm_compute.
  - exists (lit "Y"). split; reflexivity.
Defined.

(** ** Listing *)

Lemma listed_app (a b : list view_line) : listed (a ++ b) = listed a ++ listed b.
Proof.
  induction a as [|line a IH]; [done |]. destruct line; cbn; by rewrite ?IH.
Qed.

Lemma view_task_listed fmt x : listed (view_task fmt x).1 = [header x].
Proof.
  unfold view_task, show_stamp.
  destruct (fmt (Task.created_at x)) as [date|]; cbn [fst snd].
  - destruct (Task.completed x), (Task.completed_at x) as [stamp|];
      try (by destruct (truthy (Task.description x))).
    destruct (truthy stamp); [destruct (fmt stamp) |];
      by destruct (truthy (Task.description x)).
  - by destruct (truthy (Task.description x)).
Qed.

Lemma view_task_shown fmt x :
  (view_task fmt x).2 = Shown ↔ stamps_readable fmt x.
Proof.
  unfold view_task, show_stamp, stamps_readable.
  destruct (fmt (Task.created_at x)) as [date|]; cbn [fst snd].
  - destruct (Task.completed x), (Task.completed_at x) as [stamp|]; cbn.
    + destruct stamp as [|c stamp]; cbn.
      * split; [|done]. intros _. split; [by eexists |]. by intros ? _ [= <-].
      * destruct (fmt (c :: stamp)) as [d|] eqn:Hfmt; cbn.
        -- split; [|done]. intros _. split; [by eexists |].
           intros ? _ [= <-] _. by eexists.
        -- split; [done |]. intros [_ Hstamp].
           destruct (Hstamp (c :: stamp)) as [d Hd]; [done.. |]. congruence.
    + split; [|done]. intros _. split; [by eexists | done].
    + split; [|done]. intros _. split; [by eexists | done].
    + split; [|done]. intros _. split; [by eexists | done].
  - split; [done |]. by intros [[? ?] _].
Qed.

Lemma view_each_listed fmt l :
  listed (view_each fmt l).1 `prefix_of` header <$> l
  ∧ ((view_each fmt l).2 = Shown → listed (view_each fmt l).1 = header <$> l).
Proof.
  induction l as [|x l [IHprefix IHall]]; [done |]. cbn [view_each].
  pose proof (view_task_listed fmt x) as Hx.
  destruct (view_task fmt x) as [lines []]; cbn [fst snd] in *.
  - destruct (view_each fmt l) as [more e]; cbn [fst snd] in *.
    rewrite listed_app, Hx, fmap_cons. cbn. split.
    + by apply prefix_cons.
    + intros He. by rewrite IHall.
  - rewrite Hx, fmap_cons. split; [|done].
    by apply (prefix_app_r [header x] [header x] (header <$> l)).
Qed.

Lemma view_each_shown fmt l :
  (view_each fmt l).2 = Shown ↔ Forall (stamps_readable fmt) l.
Proof.
  induction l as [|x l IH]; [done |]. cbn [view_each].
  rewrite Forall_cons, <- IH, <- view_task_shown.
  destruct (view_task fmt x) as [lines []]; cbn [fst snd].
  - destruct (view_each fmt l) as [more e]; cbn [fst snd]. tauto.
  - split; [done | by intros [? _]].
Qed.

(** X18: [view_tasks] lists the tasks of the store in their order: with
    [show_completed] the task headers it prints are the (id, title) pairs
    of all the tasks, without it those of the pending tasks only, one
    header per task and in the order of the list.  When a stamp cannot be
    formatted the listing breaks off, and the headers printed are a prefix
    of those. *)
Theorem view_tasks_lists_in_order fmt show_completed app :
  listed (view_tasks fmt show_completed app).1
    `prefix_of` header <$> shown_tasks show_completed app
  ∧ ((view_tasks fmt show_completed app).2 = Shown →
     listed (view_tasks fmt show_completed app).1
     = header <$> shown_tasks show_completed app).
Proof.
  unfold view_tasks.
  destruct (tasks app) as [|x0 l0] eqn:Htasks.
  - assert (shown_tasks show_completed app = []) as ->; [|done].
    unfold shown_tasks. rewrite Htasks. by destruct show_completed.
  - destruct (shown_tasks show_completed app) as [|y l] eqn:Hshown; [done |].
    destruct (view_each_listed fmt (y :: l)) as [Hprefix Hall].
    destruct (view_each fmt (y :: l)) as [lines []]; cbn [fst snd] in *.
    + cbn [List.app listed]. rewrite listed_app. cbn [listed]. rewrite app_nil_r.
      by rewrite Hall.
    + cbn [List.app listed]. split; [done | discriminate].
Qed.

(** X19: [view_tasks] runs to its end exactly when every stamp it formats
    is one the date functions accept: the creation stamp of each task
    shown, and the completion stamp of each completed task shown unless
    it is empty.  A stamp of a task that is not shown (a completed one in
    the pending view), or the completion stamp of a pending task, never
    makes it raise. *)
Theorem view_tasks_ends_iff_stamps_readable fmt show_completed app :
  (view_tasks fmt show_completed app).2 = Shown
  ↔ Forall (stamps_readable fmt) (shown_tasks show_completed app).
Proof.
  unfold view_tasks.
  destruct (tasks app) as [|x0 l0] eqn:Htasks.
  - assert (shown_tasks show_completed app = []) as ->; [|done].
    unfold shown_tasks. rewrite Htasks. by destruct show_completed.
  - destruct (shown_tasks show_completed app) as [|y l] eqn:Hshown; [done |].
    rewrite <- view_each_shown.
    by destruct (view_each fmt (y :: l)) as [lines []].
Qed.

(** X20: when there is nothing to list, [view_tasks] prints one line and
    stops: the no-tasks line on an empty store, and, on a store whose
    tasks are all completed, asked for the pending ones, the line saying
    that no "completed" tasks were found.  The other wording of that
    line, "pending", is never printed: with [show_completed] a store that
    is not empty always has something to list. *)
Theorem view_tasks_nothing_to_list fmt show_completed app :
  (tasks app = [] → view_tasks fmt show_completed app = ([NoTasks], Shown))
  ∧ (tasks app ≠ [] → Forall (λ x, Task.completed x = true) (tasks app) →
     view_tasks fmt false app = ([NoneFound (lit "completed")], Shown))
  ∧ NoneFound (lit "pending") ∉ (view_tasks fmt show_completed app).1.
Proof.
  split_and!.
  - unfold view_tasks. by intros ->.
  - unfold view_tasks, shown_tasks. intros Hsome Hall.
    destruct (tasks app) as [|x l]; [done |].
    assert (filter (λ y, Task.completed y = false) (x :: l) = []) as ->; [|done].
    clear Hsome. induction Hall as [|y k Hy _ IH]; [done |].
    by rewrite filter_cons_False by (by rewrite Hy).
  - unfold view_tasks.
    destruct (tasks app) as [|x0 l0] eqn:Htasks.
    { cbn. by intros ?%list_elem_of_singleton. }
    destruct (shown_tasks show_completed app) as [|y l] eqn:Hshown.
    { unfold shown_tasks in Hshown. rewrite Htasks in Hshown.
      destruct show_completed; [done |]. cbn.
      intros Hin%list_elem_of_singleton. by vm_compute in Hin. }
    assert (Htask : ∀ x, NoneFound (lit "pending") ∉ (view_task fmt x).1).
    { intros x. unfold view_task, show_stamp.
      destruct (fmt (Task.created_at x)), (Task.completed x),
        (Task.completed_at x) as [[|c stamp]|], (truthy (Task.description x));
        cbn; try destruct (fmt (c :: stamp)); cbn;
        intros Hin; in_trace Hin. }
    assert (Heach : ∀ k, NoneFound (lit "pending") ∉ (view_each fmt k).1).
    { induction k as [|x k IH]; cbn [view_each]; [by intros ?%elem_of_nil |].
      specialize (Htask x).
      destruct (view_task fmt x) as [lines []]; cbn [fst] in *; [|done].
      destruct (view_each fmt k) as [more e]; cbn [fst] in *.
      by intros [?|?]%elem_of_app. }
    specialize (Heach (y :: l)).
    destruct (view_each fmt (y :: l)) as [lines []]; cbn [fst] in *.
    + intros [Hin|[Hin|Hin]%elem_of_app]%elem_of_app; [in_trace Hin | done |].
      by apply list_elem_of_singleton in Hin.
    + intros [Hin|Hin]%elem_of_app; [in_trace Hin | done].
Qed.

(** ** Prompting *)

Lemma truthy_false_iff (s : str) : truthy s = false ↔ s = [].
Proof. by destruct s. Qed.

Lemma get_user_input_skips to_int want_int allow_empty key :
  refused to_int want_int allow_empty key →
  ∃ complaint, ∀ rest,
    get_user_input to_int want_int allow_empty (key :: rest)
    = ((get_user_input to_int want_int allow_empty rest).1.1,
       complaint :: (get_user_input to_int want_int allow_empty rest).1.2,
       (get_user_input to_int want_int allow_empty rest).2).
Proof.
  intros (typed & -> & [[-> Hblank] | (-> & Hsome & Hint)]).
  - exists CannotBeEmpty. intros rest. cbn [get_user_input]. rewrite Hblank. cbn.
    by destruct (get_user_input to_int want_int false rest) as [[r out] unread].
  - exists EnterValidNumber. intros rest. cbn [get_user_input].
    apply truthy_true in Hsome. rewrite Hsome, Hint, andb_false_r. cbn.
    by destruct (get_user_input to_int true allow_empty rest) as [[r out] unread].
Qed.

(** X21: when [get_user_input] returns, it returns the first line of the
    input it does not refuse, trimmed: the lines before it were all
    refused (blank although an answer is required, or not a number
    although a number is asked for), each with one complaint printed, and
    the rest of the input is left unread.  The value is [None] for a blank
    line (only when blank is allowed), the trimmed text, or the number
    read from the trimmed text.  When an answer is required the value is
    never [None] and never an empty string. *)
Theorem get_user_input_returns_first_accepted
    to_int want_int allow_empty keys v out rest :
  get_user_input to_int want_int allow_empty keys = (Answered v, out, rest) →
  ∃ skipped typed,
    keys = skipped ++ Line typed :: rest
    ∧ Forall (refused to_int want_int allow_empty) skipped
    ∧ length out = length skipped
    ∧ ((strip typed = [] ∧ allow_empty = true ∧ v = None)
       ∨ (strip typed ≠ [] ∧ want_int = false
          ∧ v = Some (StrValue (strip typed)))
       ∨ (strip typed ≠ [] ∧ want_int = true
          ∧ ∃ z, to_int (strip typed) = Some z ∧ v = Some (IntValue z)))
    ∧ (allow_empty = false → ∃ w, v = Some w ∧ w ≠ StrValue []).
Proof.
  revert out. induction keys as [|key keys IH]; intros out Hrun; [done |].
  destruct key as [typed|]; [|done]. cbn [get_user_input] in Hrun.
  assert (Hskip : ∀ complaint out',
    refused to_int want_int allow_empty (Line typed) →
    get_user_input to_int want_int allow_empty keys = (Answered v, out', rest) →
    out = complaint :: out' →
    ∃ skipped typed0,
      Line typed :: keys = skipped ++ Line typed0 :: rest
      ∧ Forall (refused to_int want_int allow_empty) skipped
      ∧ length out = length skipped
      ∧ ((strip typed0 = [] ∧ allow_empty = true ∧ v = None)
         ∨ (strip typed0 ≠ [] ∧ want_int = false
            ∧ v = Some (StrValue (strip typed0)))
         ∨ (strip typed0 ≠ [] ∧ want_int = true
            ∧ ∃ z, to_int (strip typed0) = Some z ∧ v = Some (IntValue z)))
      ∧ (allow_empty = false → ∃ w, v = Some w ∧ w ≠ StrValue [])).
  { intros complaint out' Hrefused Hrest ->.
    destruct (IH out' Hrest) as (skipped & typed0 & -> & Hall & Hlen & Hv & Hreq).
    exists (Line typed :: skipped), typed0.
    split_and!; [done | by constructor | by cbn; rewrite Hlen | done | done]. }
  destruct (truthy (strip typed)) eqn:Htruthy.
  - apply truthy_true in Htruthy as Hsome. rewrite andb_false_r in Hrun.
    destruct want_int.
    + destruct (to_int (strip typed)) as [z|] eqn:Hint.
      * injection Hrun as <- <- <-. exists [], typed.
        split_and!; [done | done | done | | by eexists].
        right. right. eauto.
      * destruct (get_user_input to_int true allow_empty keys)
          as [[r out'] unread] eqn:Hrest.
        injection Hrun as -> <- ->.
        apply (Hskip EnterValidNumber out'); [|done..].
        exists typed. split; [done |]. right. done.
    + injection Hrun as <- <- <-. exists [], typed.
      split_and!; [done | done | done | | ].
      * right. left. done.
      * intros _. eexists. split; [done |]. by intros [= Hnil].
  - apply truthy_false_iff in Htruthy as Hblank.
    destruct allow_empty; cbn in Hrun.
    + exists [], typed.
      assert (v = None ∧ out = [] ∧ rest = keys) as (-> & -> & ->).
      { destruct want_int; by injection Hrun as <- <- <-. }
      split_and!; [done | done | done | by left | done].
    + destruct (get_user_input to_int want_int false keys)
        as [[r out'] unread] eqn:Hrest.
      injection Hrun as -> <- ->.
      apply (Hskip CannotBeEmpty out'); [|done..].
      exists typed. split; [done |]. left. done.
Qed.

Lemma get_user_input_returns_witness :
  ∃ skipped typed,
    [Line (lit "  "); Line (lit " milk "); Line (lit "x")]
    = skipped ++ Line typed :: [Line (lit "x")]
    ∧ Forall (refused (λ _, None) false false) skipped
    ∧ length [CannotBeEmpty] = length skipped
    ∧ ((strip typed = [] ∧ false = true ∧ Some (StrValue (lit "milk")) = None)
       ∨ (strip typed ≠ [] ∧ false = false
          ∧ Some (StrValue (lit "milk")) = Some (StrValue (strip typed)))
       ∨ (strip typed ≠ [] ∧ false = true
          ∧ ∃ z, (λ _ : str, @None Z) (strip typed) = Some z
                 ∧ Some (StrValue (lit "milk")) = Some (IntValue z)))
    ∧ (false = false → ∃ w, Some (StrValue (lit "milk")) = Some w ∧ w ≠ StrValue []).
Proof.
  apply (get_user_input_returns_first_accepted (λ _, None) false false
           [Line (lit "  "); Line (lit " milk "); Line (lit "x")]
           (Some (StrValue (lit "milk"))) [CannotBeEmpty] [Line (lit "x")]).
  reflexivity.
Defined.

(** X22: a refused line never ends the prompt.  After any number of
    refused lines, each answered with one complaint, an interrupt makes
    [get_user_input] print the goodbye line and exit, leaving the rest of
    the input unread; and if the input ends there, the end-of-input error
    of [input], which [get_user_input] does not catch, escapes from it. *)
Theorem get_user_input_without_answer to_int want_int allow_empty skipped :
  Forall (refused to_int want_int allow_empty) skipped →
  (∃ out,
     get_user_input to_int want_int allow_empty skipped = (EndOfInput, out, [])
     ∧ length out = length skipped)
  ∧ (∀ rest, ∃ out,
       get_user_input to_int want_int allow_empty (skipped ++ Interrupt :: rest)
       = (Exited, out ++ [Goodbye], rest)
       ∧ length out = length skipped).
Proof.
  induction 1 as [|key skipped Hkey _ [(out1 & Hend & Hlen1) Hexit]].
  - split; [by exists [] |]. intros rest. by exists [].
  - destruct (get_user_input_skips _ _ _ _ Hkey) as [complaint Hskip]. split.
    + exists (complaint :: out1). rewrite Hskip, Hend. cbn. by rewrite Hlen1.
    + intros rest. destruct (Hexit rest) as (out2 & Hrun & Hlen2).
      exists (complaint :: out2). cbn [List.app]. rewrite Hskip, Hrun. cbn.
      by rewrite Hlen2.
Qed.

Lemma get_user_input_without_answer_witness :
  (∃ out,
     get_user_input (λ _, None) true false [Line (lit "  "); Line (lit "abc")]
     = (EndOfInput, out, [])
     ∧ length out = length [Line (lit "  "); Line (lit "abc")])
  ∧ (∀ rest, ∃ out,
       get_user_input (λ _, None) true false
         ([Line (lit "  "); Line (lit "abc")] ++ Interrupt :: rest)
       = (Exited, out ++ [Goodbye], rest)
       ∧ length out = length [Line (lit "  "); Line (lit "abc")]).
Proof.
  apply (get_user_input_without_answer (λ _, None) true false
           [Line (lit "  "); Line (lit "abc")]).
  repeat apply Forall_cons_2; try apply Forall_nil_2.
  - exists (lit "  "). split; [done |]. left. done.
  - exists (lit "abc"). split; [done |]. right.
    split_and!; [done | vm_compute; discriminate | done].
Defined.
